(** * The AniDB titles indexer (main.py), embedded in Rocq

    The program reads the dump [anime-titles.xml], turns every [anime]
    element into one flat document (a Python dict) and sends the documents
    to a MeiliSearch index in batches of 500.

    The embedding follows main.py function by function:
    - a document is an insertion-ordered association list, as a Python dict;
    - the calls to the MeiliSearch client, the prints and the sleeps are
      events appended to a trace, threaded through a small state and error
      monad;
    - [sys.exit] and an uncaught exception are the two ways a run stops. *)

From Stdlib Require Import List String Ascii Bool Arith ZArith Lia.
From Stdlib Require Import Decimal DecimalString.
From Stdlib Require DecimalFacts DecimalNat.
Import ListNotations.

Local Open Scope string_scope.
Local Open Scope list_scope.

Set Implicit Arguments.

(** ** Text helpers *)

(** [str(n)] of Python for a natural number: its decimal digits. *)
Definition str (n : nat) : string :=
  NilEmpty.string_of_uint (Nat.to_uint n).

Definition is_digit (c : ascii) : bool :=
  let n := nat_of_ascii c in ((48 <=? n) && (n <=? 57))%nat.

Definition is_upper (c : ascii) : bool :=
  let n := nat_of_ascii c in ((65 <=? n) && (n <=? 90))%nat.

Definition is_lower (c : ascii) : bool :=
  let n := nat_of_ascii c in ((97 <=? n) && (n <=? 122))%nat.

(** The characters a slug keeps: ASCII letters and digits. *)
Definition is_alnum (c : ascii) : bool :=
  is_digit c || is_upper c || is_lower c.

Definition lower (c : ascii) : ascii :=
  if is_upper c then ascii_of_nat (nat_of_ascii c + 32) else c.

(** Does the character occur in the text? *)
Fixpoint occurs (c : ascii) (s : string) : bool :=
  match s with
  | EmptyString => false
  | String x r => Ascii.eqb x c || occurs c r
  end.

(** Every character of the text is a digit. *)
Fixpoint digits (s : string) : bool :=
  match s with
  | EmptyString => true
  | String c r => is_digit c && digits r
  end.

(** Where the slugifier stands in its input: nothing kept yet, inside a run
    of kept characters, or after a run of dropped characters that follows a
    kept one. *)
Inductive phase : Type := Start | Word | Gap.

Definition skip (p : phase) : phase :=
  match p with Start => Start | Word | Gap => Gap end.

(** Modelled from the spec: the pass of [slugify] over its text (4.1).
    Letters and digits are kept in lower case, and a run of any other
    characters between two kept characters becomes one underscore; runs at
    either end leave nothing. *)
Fixpoint slug (p : phase) (s : string) : string :=
  match s with
  | EmptyString => EmptyString
  | String c r =>
      if is_alnum c then
        match p with
        | Gap => String "_"%char (String (lower c) (slug Word r))
        | Start | Word => String (lower c) (slug Word r)
        end
      else slug (skip p) r
  end.

(** Modelled from the spec: [slugify(text, separator="_")] of the
    python-slugify package, which main.py imports and which is not part of
    the repository.  The spec (4.1) gives its rule: lower-case ASCII letters
    and digits, every other character collapsed to single underscores, no
    leading or trailing underscore.  On text made of ASCII letters, digits,
    hyphens and underscores, which is what main.py passes for the language
    tags of the dump, this is what the package computes. *)
Definition slugify (text : string) : string := slug Start text.

(** The phase reached after reading [s] from phase [p]. *)
Fixpoint phase_after (p : phase) (s : string) : phase :=
  match s with
  | EmptyString => p
  | String c r => phase_after (if is_alnum c then Word else skip p) r
  end.

(** ** Documents: Python dicts *)

Inductive value : Type :=
| VInt (n : Z)
| VStr (s : string).

(** A dict keeps its keys in insertion order. *)
Definition document : Type := list (string * value).

(** [data[key]], [None] for a missing key. *)
Fixpoint lookup (key : string) (data : document) : option value :=
  match data with
  | [] => None
  | (k, v) :: rest => if k =? key then Some v else lookup key rest
  end.

(** [data[key] = v]: an existing key keeps its place and takes the new
    value, a new key goes to the end. *)
Fixpoint dict_set (data : document) (key : string) (v : value) : document :=
  match data with
  | [] => [(key, v)]
  | (k, w) :: rest =>
      if k =? key then (k, v) :: rest else (k, w) :: dict_set rest key v
  end.

Definition keys (data : document) : list string := map fst data.

(** ** The dump *)

(** A [title] element: its [type] and [xml:lang] attributes ([getAttribute]
    gives the empty string for an attribute that is not there) and the
    [nodeValue] of its first child, the title itself. *)
Record Title : Type := mkTitle {
  ttype : string;
  lang : string;
  text : string
}.

(** An [anime] element: the integer [int()] reads from its [aid] attribute
    and its [title] elements in document order.  An [aid] that is not an
    integer and a [title] element without a text child are outside the
    model. *)
Record Anime : Type := mkAnime {
  aid : Z;
  titles : list Title
}.

Definition is_main (tag : Title) : bool := ttype tag =? "main".
Definition is_official (tag : Title) : bool := ttype tag =? "official".
Definition is_short (tag : Title) : bool := ttype tag =? "short".

(** ** Results *)

(** The exceptions of the model that nothing catches. *)
Inductive exn : Type := StopIteration.

(** How a computation ends: with a value, with [sys.exit(msg)] (the message
    goes to stderr and the exit status is 1), or with an uncaught exception
    (Python prints the traceback and the exit status is 1). *)
Inductive outcome (A : Type) : Type :=
| Return (a : A)
| SysExit (msg : string)
| Uncaught (e : exn).

Arguments Return {A} a.
Arguments SysExit {A} msg.
Arguments Uncaught {A} e.

Definition exit_status {A : Type} (o : outcome A) : Z :=
  match o with
  | Return _ => 0
  | SysExit _ | Uncaught _ => 1
  end.

(** ** One entry to one document (the body of the loop, lines 104-145) *)

Definition official_key (language : string) : string :=
  slugify ("official_" ++ language).

Definition short_key (language : string) (short_name_index : nat) : string :=
  slugify ("short_" ++ language ++ "_" ++ str short_name_index).

(** [enumerate(l, start)]. *)
Fixpoint enumerate {A : Type} (start : nat) (l : list A) : list (nat * A) :=
  match l with
  | [] => []
  | x :: r => (start, x) :: enumerate (S start) r
  end.

(** The texts of the short titles of one language, in document order. *)
Definition short_names_list (titles : list Title) (language : string)
  : list string :=
  map text
    (filter (fun title => is_short title && (lang title =? language)) titles).

(** The body of [for official in officials]. *)
Definition official_step (titles : list Title) (data : document)
  (official : Title) : document :=
  let language := lang official in
  let data := dict_set data (official_key language) (VStr (text official)) in
  fold_left
    (fun data '(short_name_index, short_name) =>
       dict_set data (short_key language short_name_index) (VStr short_name))
    (enumerate 1 (short_names_list titles language))
    data.

(** [next(tag for tag in titles if ...)] raises [StopIteration] when no
    title has type [main]. *)
Definition normalize (anime : Anime) : outcome document :=
  let anime_id := aid anime in
  let titles := titles anime in
  match find is_main titles with
  | None => Uncaught StopIteration
  | Some main =>
      let officials := filter is_official titles in
      let data := [("anime_id", VInt anime_id); ("main", VStr (text main))] in
      Return (fold_left (official_step titles) officials data)
  end.

(** The assignments [data[key] = value] that one official title causes: its
    own, then one per short title of its language. *)
Definition block (titles : list Title) (official : Title)
  : list (string * value) :=
  (official_key (lang official), VStr (text official))
  :: map (fun '(i, short_name) => (short_key (lang official) i, VStr short_name))
       (enumerate 1 (short_names_list titles (lang official))).

(** All the assignments of one entry after the first two, in the order the
    loop makes them. *)
Definition writes (titles : list Title) : list (string * value) :=
  flat_map (block titles) (filter is_official titles).

Definition assign (data : document) (kv : string * value) : document :=
  dict_set data (fst kv) (snd kv).

(** The value of the last assignment to [key] in a list of assignments. *)
Fixpoint last_write (key : string) (ws : list (string * value))
  : option value :=
  match ws with
  | [] => None
  | (k, v) :: rest =>
      match last_write key rest with
      | Some v' => Some v'
      | None => if k =? key then Some v else None
      end
  end.

(** ** Field keys *)

(** What a key is made from: a role, a language and, for a short title, the
    1-based occurrence among the short titles of that language. *)
Inductive field : Type :=
| Official (language : string)
| Short (language : string) (occurrence : nat).

Definition key_of (f : field) : string :=
  match f with
  | Official language => official_key language
  | Short language occurrence => short_key language occurrence
  end.

(** Language tags over ASCII letters, digits and hyphens. *)
Fixpoint tag_alphabet (s : string) : bool :=
  match s with
  | EmptyString => true
  | String c r => (is_alnum c || Ascii.eqb c "-") && tag_alphabet r
  end.

Definition language_of (f : field) : string :=
  match f with
  | Official language | Short language _ => language
  end.

(** Two fields that differ only by languages of the same slug form: the
    same role, the same occurrence, and languages that [slugify] maps to the
    same text. *)
Definition same_slug (f g : field) : Prop :=
  match f, g with
  | Official l1, Official l2 => slugify l1 = slugify l2
  | Short l1 i, Short l2 j => slugify l1 = slugify l2 /\ i = j
  | _, _ => False
  end.

(** A language tag in canonical form: lower-case letters and digits, with
    single hyphens between them only, as [en] and [x-jat]. *)
Fixpoint canon (p : phase) (s : string) : bool :=
  match s with
  | EmptyString => match p with Gap => false | Start | Word => true end
  | String c r =>
      if is_lower c || is_digit c then canon Word r
      else if Ascii.eqb c "-"
           then match p with Word => canon Gap r | Start | Gap => false end
           else false
  end.

Definition canonical (s : string) : bool := canon Start s.

(** The tag with an underscore for every hyphen. *)
Definition under_char (c : ascii) : ascii :=
  if Ascii.eqb c "-" then "_"%char else c.

Fixpoint under (s : string) : string :=
  match s with
  | EmptyString => EmptyString
  | String c r => String (under_char c) (under r)
  end.

(** No two different languages of the list have the same slug form. *)
Fixpoint distinct_slugs (langs : list string) : bool :=
  match langs with
  | [] => true
  | l :: r =>
      forallb (fun l' => (l' =? l) || negb (slugify l' =? slugify l)) r
      && distinct_slugs r
  end.

(** The languages of the official titles, and of the official and short
    titles, of an entry. *)
Definition official_langs (titles : list Title) : list string :=
  map lang (filter is_official titles).

Definition keyed_langs (titles : list Title) : list string :=
  map lang (filter (fun t => is_official t || is_short t) titles).

(** The two lists hold the same languages. *)
Definition same_langs (l1 l2 : list string) : bool :=
  forallb (fun x => existsb (String.eqb x) l2) l1
  && forallb (fun x => existsb (String.eqb x) l1) l2.

(** ** The run *)

(** What the program does to the outside, in order: calls of the
    MeiliSearch client, the attempt to read the dump, prints and sleeps. *)
Inductive event : Type :=
| Health (url : string)
| GetIndexes
| GetIndex (uid : string)
| CreateIndex (uid name : string)
| DeleteAllDocuments (uid : string)
| AddDocuments (uid : string) (documents : list document)
| Parse (file : string)
| Stdout (line : string)
| Sleep (seconds : nat).

(** What the outside answers: whether the server is up, the uids of its
    indexes, whether it takes a batch (given what happened before), and the
    [anime] elements of the dump ([None]: there is no such file). *)
Record World : Type := mkWorld {
  healthy : bool;
  indexes : list string;
  accepts : list event -> list document -> bool;
  dump : option (list Anime)
}.

(** Computations that extend the trace and may stop the run. *)
Definition M (A : Type) : Type := list event -> outcome A * list event.

Definition ret {A : Type} (a : A) : M A := fun tr => (Return a, tr).

Definition bind {A B : Type} (m : M A) (f : A -> M B) : M B :=
  fun tr =>
    match m tr with
    | (Return a, tr') => f a tr'
    | (SysExit msg, tr') => (SysExit msg, tr')
    | (Uncaught e, tr') => (Uncaught e, tr')
    end.

Definition emit (e : event) : M unit := fun tr => (Return tt, tr ++ [e]).

Definition sys_exit {A : Type} (msg : string) : M A :=
  fun tr => (SysExit msg, tr).

Definition lift {A : Type} (o : outcome A) : M A := fun tr => (o, tr).

Declare Scope run_scope.
Delimit Scope run_scope with run.
Notation "x <- m ;; k" := (bind m (fun x => k))
  (at level 61, m at next level, right associativity) : run_scope.
Notation "m ;;; k" := (bind m (fun _ => k))
  (at level 61, right associativity) : run_scope.

(** The escape sequence that turns the terminal red, and the double quote. *)
Definition red : string := String (ascii_of_nat 27) "[31m".
Definition dquote : string := String (ascii_of_nat 34) "".
Definition cr : string := String (ascii_of_nat 13) "".
Definition nl : string := String (ascii_of_nat 10) "".

Definition print (line : string) (end_ : string) : M unit :=
  emit (Stdout (line ++ end_)).

(** The command line, with the defaults of lines 177-179. *)
Record Args : Type := mkArgs {
  url : string;
  index_uid : string;
  index_name : string
}.

Definition default_args : Args :=
  mkArgs "http://127.0.0.1:7700" "animes" "Animes".

(** The message for a missing dump. *)
Definition not_found : string :=
  (red ++ "The file " ++ dquote ++ "anime-titles.xml" ++ dquote
   ++ " hasn't been found...")%string.

Section Run.

Variable w : World.

Local Open Scope run_scope.

(** [create_connection], lines 12-32.  The client is the url. *)
Definition create_connection (url : string) : M string :=
  emit (Health url) ;;;
  if healthy w then ret url
  else sys_exit (red ++ "No instance of MeiliSearch is running on " ++ url ++ " ...").

(** [get_or_create_index], lines 35-58.  The index is its uid. *)
Definition get_or_create_index (client uid name : string) : M string :=
  emit GetIndexes ;;;
  let exist := find (fun index => index =? uid) (indexes w) in
  match exist with
  | Some _ => emit (GetIndex uid)
  | None => emit (CreateIndex uid name)
  end ;;;
  emit (DeleteAllDocuments uid) ;;;
  ret uid.

(** [add_documents], lines 61-72. *)
Definition add_documents (meilisearch_index : string)
  (documents : list document) : M unit :=
  fun tr =>
    if accepts w tr documents
    then (Return tt, tr ++ [AddDocuments meilisearch_index documents])
    else (SysExit (red ++ "An error occurs while indexing to MeiliSearch..."),
          tr ++ [AddDocuments meilisearch_index documents]).

(** The loop of lines 103-163 from entry number [index] on, with the
    queue built so far; it returns the queue left at the end. *)
Fixpoint loop (meilisearch_index : string) (total_animes : nat)
  (animes : list Anime) (index : nat) (data_queue : list document)
  : M (list document) :=
  match animes with
  | [] => ret data_queue
  | anime :: rest =>
      data <- lift (normalize anime) ;;
      let data_queue := data_queue ++ [data] in
      if (index mod 500 =? 0)%nat then
        add_documents meilisearch_index data_queue ;;;
        print ("Indexing " ++ str index ++ " of " ++ str total_animes ++ "...") cr ;;;
        emit (Sleep 1) ;;;
        loop meilisearch_index total_animes rest (S index) []
      else loop meilisearch_index total_animes rest (S index) data_queue
  end.

(** [parse_and_index], lines 75-170. *)
Definition parse_and_index (meilisearch_index : string) : M unit :=
  emit (Parse "anime-titles.xml") ;;;
  match dump w with
  | None => sys_exit not_found
  | Some animes =>
      let total_animes := List.length animes in
      if (total_animes =? 0)%nat then sys_exit "No anime found during parsing..."
      else
        data_queue <- loop meilisearch_index total_animes animes 1 [] ;;
        add_documents meilisearch_index data_queue ;;;
        print ("Indexed all " ++ str total_animes ++ " animes! Have fun!") nl
  end.

(** [main], lines 173-190, started on an empty trace. *)
Definition main (args : Args) : M unit :=
  client <- create_connection (url args) ;;
  index <- get_or_create_index client (index_uid args) (index_name args) ;;
  parse_and_index index.

End Run.

(** The batches handed to [add_documents], in order. *)
Fixpoint batches (tr : list event) : list (list document) :=
  match tr with
  | [] => []
  | AddDocuments _ documents :: rest => documents :: batches rest
  | _ :: rest => batches rest
  end.

Definition is_delete (e : event) : bool :=
  match e with DeleteAllDocuments _ => true | _ => false end.

(** The documents of a catalog whose entries all have a main title. *)
Fixpoint documents_of (animes : list Anime) : option (list document) :=
  match animes with
  | [] => Some []
  | anime :: rest =>
      match normalize anime, documents_of rest with
      | Return d, Some ds => Some (d :: ds)
      | _, _ => None
      end
  end.


(** What a run does before it reads the dump, when the server is up. *)
Definition connected (w : World) (args : Args) : list event :=
  [Health (url args);
   GetIndexes;
   match find (fun index => index =? index_uid args) (indexes w) with
   | Some _ => GetIndex (index_uid args)
   | None => CreateIndex (index_uid args) (index_name args)
   end;
   DeleteAllDocuments (index_uid args);
   Parse "anime-titles.xml"].

(** A catalog of [n] entries with a main title each, numbered from 1. *)
Definition catalog (n : nat) : list Anime :=
  map (fun i => mkAnime (Z.of_nat i) [mkTitle "main" "x-jat" "Title"])
    (seq 1 n).

Definition server (animes : option (list Anime)) : World :=
  mkWorld true ["animes"] (fun _ _ => true) animes.

(** ** What a run shows and what it asks of the server *)

(** The lines written to standard output, in order. *)
Fixpoint stdout (tr : list event) : list string :=
  match tr with
  | [] => []
  | Stdout line :: rest => line :: stdout rest
  | _ :: rest => stdout rest
  end.

(** The seconds spent in [time.sleep]. *)
Fixpoint slept (tr : list event) : nat :=
  match tr with
  | [] => 0
  | Sleep seconds :: rest => seconds + slept rest
  | _ :: rest => slept rest
  end.

(** The progress line of line 160 and the last line of line 170. *)
Definition progress (total_animes index : nat) : string :=
  (("Indexing " ++ str index ++ " of " ++ str total_animes ++ "...") ++ cr)%string.

Definition finished (total_animes : nat) : string :=
  (("Indexed all " ++ str total_animes ++ " animes! Have fun!") ++ nl)%string.

(** The messages of lines 30 and 72. *)
Definition no_instance (url : string) : string :=
  (red ++ "No instance of MeiliSearch is running on " ++ url ++ " ...")%string.

Definition indexing_error : string :=
  (red ++ "An error occurs while indexing to MeiliSearch...")%string.

(** What the loop and the last flush may do: add documents to the given
    index, print and sleep. *)
Definition is_load (uid : string) (e : event) : bool :=
  match e with
  | AddDocuments u _ => u =? uid
  | Stdout _ | Sleep _ => true
  | _ => false
  end.

(** Every batch of the trace [tr], which comes after the events [before],
    was taken by the server. *)
Fixpoint clean_from (w : World) (before tr : list event) : bool :=
  match tr with
  | [] => true
  | e :: rest =>
      match e with
      | AddDocuments _ documents => accepts w before documents
      | _ => true
      end
      && clean_from w (before ++ [e]) rest
  end.

Definition clean (w : World) (tr : list event) : bool := clean_from w [] tr.

(** The titles the loop body looks at: those of type main, official or
    short. *)
Definition is_keyed (tag : Title) : bool :=
  is_main tag || is_official tag || is_short tag.


(** How a run with the server up and a dump of at least one entry ends. *)
Inductive ending (w : World) (args : Args) (animes : list Anime)
  : outcome unit -> list event -> Prop :=
| Indexed (ext : list event) (q ds : list document) :
    forallb (is_load (index_uid args)) ext = true ->
    Forall (fun b => List.length b = 500) (batches ext) ->
    List.length q = List.length animes mod 500 ->
    documents_of animes = Some ds ->
    List.concat (batches ext) ++ q = ds ->
    clean w (connected w args ++ ext
             ++ [AddDocuments (index_uid args) q]) = true ->
    ending w args animes (Return tt)
      (connected w args ++ ext
       ++ [AddDocuments (index_uid args) q;
           Stdout (finished (List.length animes))])
| Refused (ext : list event) (b : list document) :
    forallb (is_load (index_uid args)) ext = true ->
    Forall (fun b => List.length b = 500) (batches ext) ->
    List.length b <= 500 ->
    clean w (connected w args ++ ext) = true ->
    accepts w (connected w args ++ ext) b = false ->
    ending w args animes (SysExit indexing_error)
      (connected w args ++ ext ++ [AddDocuments (index_uid args) b])
| Broken (ext : list event) :
    forallb (is_load (index_uid args)) ext = true ->
    Forall (fun b => List.length b = 500) (batches ext) ->
    clean w (connected w args ++ ext) = true ->
    documents_of animes = None ->
    ending w args animes (Uncaught StopIteration) (connected w args ++ ext).

(** ** Strings *)

Lemma append_inv_head (a b c : string) :
  (a ++ b)%string = (a ++ c)%string -> b = c.
Proof.
  induction a as [|x a IH]; simpl; intros H; [exact H | ].
  injection H as H. now apply IH.
Qed.

Lemma occurs_app (c : ascii) (a b : string) :
  occurs c (a ++ b)%string = occurs c a || occurs c b.
Proof.
  induction a as [|x a IH]; simpl; [reflexivity | ].
  now rewrite IH, orb_assoc.
Qed.

(** A text is cut in one way only at its last occurrence of a character. *)
Lemma split_at_last (c : ascii) (a1 a2 d1 d2 : string) :
  occurs c d1 = false -> occurs c d2 = false ->
  (a1 ++ String c d1)%string = (a2 ++ String c d2)%string ->
  a1 = a2 /\ d1 = d2.
Proof.
  intros H1 H2. revert a2.
  induction a1 as [|x a1 IH]; intros [|y a2]; simpl; intros E.
  - injection E as E. now split.
  - injection E as -> E. subst d1.
    rewrite occurs_app in H1. simpl in H1.
    rewrite Ascii.eqb_refl in H1. simpl in H1.
    apply orb_false_iff in H1 as [_ H1]. discriminate.
  - injection E as -> E. subst d2.
    rewrite occurs_app in H2. simpl in H2.
    rewrite Ascii.eqb_refl in H2. simpl in H2.
    apply orb_false_iff in H2 as [_ H2]. discriminate.
  - injection E as -> E. destruct (IH a2 E) as [-> ->]. now split.
Qed.

(** ** Decimal digits *)

Lemma digits_string_of_uint (d : uint) :
  digits (NilEmpty.string_of_uint d) = true.
Proof. induction d; simpl; try rewrite IHd; reflexivity. Qed.

Lemma str_digits (n : nat) : digits (str n) = true.
Proof. apply digits_string_of_uint. Qed.

Lemma str_nonempty (n : nat) : str n <> "".
Proof.
  unfold str. intros H.
  assert (E : Nat.to_uint n = Nil).
  { destruct (Nat.to_uint n); simpl in H; try discriminate. reflexivity. }
  apply (DecimalFacts.unorm_nonnil (Nat.to_uint n)).
  rewrite <- (DecimalNat.Unsigned.to_of (Nat.to_uint n)).
  rewrite DecimalNat.Unsigned.of_to. exact E.
Qed.

Lemma str_inj (n m : nat) : str n = str m -> n = m.
Proof.
  unfold str. intros H.
  apply DecimalNat.Unsigned.to_uint_inj.
  assert (E : Some (Nat.to_uint n) = Some (Nat.to_uint m)).
  { rewrite <- !NilEmpty.usu. now rewrite H. }
  now injection E.
Qed.

Lemma is_digit_alnum (c : ascii) : is_digit c = true -> is_alnum c = true.
Proof. unfold is_alnum. now intros ->. Qed.

Lemma is_digit_lower (c : ascii) : is_digit c = true -> lower c = c.
Proof.
  unfold lower, is_upper, is_digit. intros H.
  apply andb_true_iff in H as [_ H]. apply Nat.leb_le in H.
  destruct (65 <=? nat_of_ascii c)%nat eqn:E; [ | reflexivity].
  apply Nat.leb_le in E. lia.
Qed.

Lemma is_digit_not_underscore (c : ascii) :
  is_digit c = true -> Ascii.eqb c "_" = false.
Proof.
  intros H. apply Ascii.eqb_neq. intros ->. discriminate.
Qed.

Lemma digits_no_underscore (s : string) :
  digits s = true -> occurs "_" s = false.
Proof.
  induction s as [|c s IH]; simpl; [reflexivity | ].
  intros H. apply andb_true_iff in H as [Hc Hs].
  now rewrite (is_digit_not_underscore _ Hc), IH.
Qed.

(** ** The slugifier *)

Lemma slug_app (p : phase) (a b : string) :
  slug p (a ++ b)%string = (slug p a ++ slug (phase_after p a) b)%string.
Proof.
  revert p. induction a as [|c a IH]; intros p; simpl; [reflexivity | ].
  destruct (is_alnum c); [ | apply IH].
  destruct p; simpl; now rewrite IH.
Qed.

(** Digits pass through unchanged. *)
Lemma slug_Word_digits (s : string) : digits s = true -> slug Word s = s.
Proof.
  induction s as [|c s IH]; simpl; [reflexivity | ].
  intros H. apply andb_true_iff in H as [Hc Hs].
  now rewrite (is_digit_alnum _ Hc), (is_digit_lower _ Hc), IH.
Qed.

Lemma slug_Gap_digits (s : string) :
  digits s = true -> s <> "" -> slug Gap s = String "_" s.
Proof.
  destruct s as [|c s]; [congruence | ]. simpl.
  intros H _. apply andb_true_iff in H as [Hc Hs].
  now rewrite (is_digit_alnum _ Hc), (is_digit_lower _ Hc), slug_Word_digits.
Qed.

(** After a gap, a text gives an underscore and its slug, or nothing. *)
Lemma slug_Gap (s : string) :
  slug Gap s = match slugify s with "" => "" | t => String "_" t end.
Proof.
  unfold slugify. induction s as [|c s IH]; simpl; [reflexivity | ].
  destruct (is_alnum c); [reflexivity | exact IH].
Qed.

Lemma slug_Gap_inj (a b : string) :
  slug Gap a = slug Gap b <-> slugify a = slugify b.
Proof.
  rewrite !slug_Gap. split.
  - destruct (slugify a), (slugify b); simpl; congruence.
  - now intros ->.
Qed.

Lemma skip_phase_after_Gap (s : string) : skip (phase_after Gap s) = Gap.
Proof.
  assert (H : forall p, p <> Start -> phase_after p s <> Start).
  { induction s as [|c s IH]; simpl; intros p Hp; [exact Hp | ].
    apply IH. destruct (is_alnum c); [discriminate | now destruct p]. }
  specialize (H Gap). destruct (phase_after Gap s); try reflexivity.
  exfalso. now apply H.
Qed.

(** The two key shapes. *)
Lemma official_key_eq (language : string) :
  official_key language = ("official" ++ slug Gap language)%string.
Proof. reflexivity. Qed.

Lemma short_key_eq (language : string) (i : nat) :
  short_key language i
  = ("short" ++ slug Gap language ++ String "_" (str i))%string.
Proof.
  unfold short_key.
  change (slugify ("short_" ++ language ++ "_" ++ str i)%string)
    with ("short" ++ slug Gap (language ++ String "_" (str i)))%string.
  rewrite slug_app. simpl slug at 2.
  change (is_alnum "_") with false. cbv iota.
  rewrite skip_phase_after_Gap.
  now rewrite (slug_Gap_digits (str_digits i) (@str_nonempty i)).
Qed.

Lemma official_key_inj (l1 l2 : string) :
  official_key l1 = official_key l2 <-> slugify l1 = slugify l2.
Proof.
  rewrite !official_key_eq, <- slug_Gap_inj. split.
  - apply append_inv_head.
  - now intros ->.
Qed.

Lemma short_key_inj (l1 l2 : string) (i j : nat) :
  short_key l1 i = short_key l2 j <-> slugify l1 = slugify l2 /\ i = j.
Proof.
  rewrite !short_key_eq, <- slug_Gap_inj. split.
  - intros H. apply append_inv_head in H.
    apply split_at_last in H;
      try (apply digits_no_underscore, str_digits).
    destruct H as [H1 H2]. split; [exact H1 | now apply str_inj].
  - now intros [-> ->].
Qed.

Lemma official_key_not_short (l1 l2 : string) (i : nat) :
  official_key l1 <> short_key l2 i.
Proof. rewrite official_key_eq, short_key_eq. discriminate. Qed.

(** ** Dicts *)

Lemma lookup_dict_set (data : document) (key key' : string) (v : value) :
  lookup key' (dict_set data key v)
  = if key =? key' then Some v else lookup key' data.
Proof.
  induction data as [|[k w] rest IH]; simpl.
  - reflexivity.
  - destruct (String.eqb_spec k key) as [-> | Hk]; simpl.
    + now destruct (key =? key').
    + rewrite IH. destruct (String.eqb_spec k key') as [-> | Hk'].
      * apply String.eqb_neq in Hk. rewrite String.eqb_sym in Hk.
        now rewrite Hk.
      * reflexivity.
Qed.

Lemma keys_dict_set (data : document) (key : string) (v : value) :
  keys (dict_set data key v)
  = if existsb (String.eqb key) (keys data) then keys data
    else keys data ++ [key].
Proof.
  unfold keys. induction data as [|[k w] rest IH]; simpl; [reflexivity | ].
  rewrite (String.eqb_sym key k).
  destruct (k =? key); simpl; [reflexivity | ].
  rewrite IH.
  now destruct (existsb (String.eqb key) (map fst rest)).
Qed.

(** After a run of assignments a key holds the value of the last one made
    to it, and its old value if none was. *)
Lemma lookup_fold_assign (ws : list (string * value)) (data : document)
  (key : string) :
  lookup key (fold_left assign ws data)
  = match last_write key ws with
    | Some v => Some v
    | None => lookup key data
    end.
Proof.
  revert data. induction ws as [|[k v] ws IH]; intros data; simpl.
  - reflexivity.
  - rewrite IH. destruct (last_write key ws); [reflexivity | ].
    unfold assign. simpl. rewrite lookup_dict_set. now destruct (k =? key).
Qed.

Lemma last_write_app (key : string) (ws1 ws2 : list (string * value)) :
  last_write key (ws1 ++ ws2)
  = match last_write key ws2 with
    | Some v => Some v
    | None => last_write key ws1
    end.
Proof.
  induction ws1 as [|[k v] ws1 IH]; simpl.
  - now destruct (last_write key ws2).
  - rewrite IH. now destruct (last_write key ws2).
Qed.

Lemma last_write_none (key : string) (ws : list (string * value)) :
  last_write key ws = None <-> ~ In key (map fst ws).
Proof.
  induction ws as [|[k v] ws IH]; simpl.
  - tauto.
  - destruct (last_write key ws) eqn:E.
    + split; [discriminate | ]. intros H. exfalso.
      assert (E' : Some v0 = None -> ~ In key (map fst ws)) by apply IH.
      destruct (in_dec string_dec key (map fst ws)) as [Hin | Hin].
      * apply H. now right.
      * apply IH in Hin. discriminate.
    + destruct (String.eqb_spec k key) as [-> | Hk].
      * split; [discriminate | ]. intros H. exfalso. apply H. now left.
      * split; [ | reflexivity]. intros _ [H | H]; [now apply Hk | ].
        now apply IH in H.
Qed.

Lemma last_write_in (key : string) (v : value) (ws : list (string * value)) :
  last_write key ws = Some v -> In (key, v) ws.
Proof.
  induction ws as [|[k w] ws IH]; simpl; [discriminate | ].
  destruct (last_write key ws).
  - intros H. right. now apply IH.
  - destruct (String.eqb_spec k key) as [-> | Hk]; [ | discriminate].
    intros H. injection H as ->. now left.
Qed.

(** A key that is assigned, and always the same value, ends with it. *)
Lemma last_write_agree (key : string) (v : value)
  (ws : list (string * value)) :
  In key (map fst ws) ->
  (forall v', In (key, v') ws -> v' = v) ->
  last_write key ws = Some v.
Proof.
  intros Hin Hall.
  destruct (last_write key ws) as [v' | ] eqn:E.
  - f_equal. apply Hall. now apply last_write_in.
  - apply last_write_none in E. contradiction.
Qed.

(** ** The loop body as a run of assignments *)

Lemma fold_short_names (language : string) (l : list (nat * string))
  (data : document) :
  fold_left
    (fun data '(short_name_index, short_name) =>
       dict_set data (short_key language short_name_index) (VStr short_name))
    l data
  = fold_left assign
      (map (fun '(i, short_name) => (short_key language i, VStr short_name)) l)
      data.
Proof.
  revert data. induction l as [|[i s] l IH]; intros data; simpl;
    [reflexivity | apply IH].
Qed.

Lemma official_step_block (titles : list Title) (data : document)
  (official : Title) :
  official_step titles data official
  = fold_left assign (block titles official) data.
Proof. unfold official_step, block. simpl. apply fold_short_names. Qed.

Lemma fold_official_step (titles : list Title) (officials : list Title)
  (data : document) :
  fold_left (official_step titles) officials data
  = fold_left assign (flat_map (block titles) officials) data.
Proof.
  revert data. induction officials as [|o os IH]; intros data.
  - reflexivity.
  - cbn [fold_left flat_map]. rewrite fold_left_app, <- official_step_block.
    apply IH.
Qed.

(** The document of an entry: the two first fields, then its assignments. *)
Lemma normalize_writes (anime : Anime) (main : Title) :
  find is_main (titles anime) = Some main ->
  normalize anime
  = Return (fold_left assign (writes (titles anime))
              [("anime_id", VInt (aid anime)); ("main", VStr (text main))]).
Proof.
  intros H. unfold normalize. rewrite H. f_equal. apply fold_official_step.
Qed.

Lemma normalize_no_main (anime : Anime) :
  find is_main (titles anime) = None ->
  normalize anime = Uncaught StopIteration.
Proof. intros H. unfold normalize. now rewrite H. Qed.

(** ** What an entry assigns *)

Lemma in_enumerate (A : Type) (l : list A) (start i : nat) (x : A) :
  In (i, x) (enumerate start l)
  <-> exists j, i = start + j /\ nth_error l j = Some x.
Proof.
  revert start. induction l as [|y l IH]; intros start; simpl.
  - split; [tauto | ]. intros [[|j] [_ H]]; discriminate.
  - rewrite IH. split.
    + intros [H | [j [-> H]]].
      * injection H as <- <-. exists 0. split; [lia | reflexivity].
      * exists (S j). split; [lia | exact H].
    + intros [[|j] [-> H]]; simpl in H.
      * injection H as ->. left. f_equal. lia.
      * right. exists j. split; [lia | exact H].
Qed.

(** An assignment of an entry is the one of an official title or the one
    of the [j]-th short title of the language of an official title. *)
Lemma in_writes (titles : list Title) (k : string) (v : value) :
  In (k, v) (writes titles)
  <-> exists o, In o titles /\ is_official o = true
      /\ ((k = official_key (lang o) /\ v = VStr (text o))
          \/ exists j s, nth_error (short_names_list titles (lang o)) j = Some s
               /\ k = short_key (lang o) (S j) /\ v = VStr s).
Proof.
  unfold writes. rewrite in_flat_map. split.
  - intros [o [Ho H]]. apply filter_In in Ho as [Ho Hoff].
    exists o. split; [exact Ho | split; [exact Hoff | ]].
    unfold block in H. simpl in H. destruct H as [H | H].
    + injection H as <- <-. now left.
    + right. apply in_map_iff in H as [[i s] [E H]].
      injection E as <- <-. apply in_enumerate in H as [j [-> H]].
      exists j, s. now repeat split.
  - intros [o [Ho [Hoff H]]]. exists o. split.
    + apply filter_In. now split.
    + unfold block. simpl. destruct H as [[-> ->] | [j [s [H [-> ->]]]]].
      * now left.
      * right. apply in_map_iff. exists (S j, s). split; [reflexivity | ].
        apply in_enumerate. exists j. now split.
Qed.

Lemma in_official_langs (titles : list Title) (l : string) :
  In l (official_langs titles)
  <-> exists o, In o titles /\ is_official o = true /\ lang o = l.
Proof.
  unfold official_langs. rewrite in_map_iff. split.
  - intros [o [E H]]. apply filter_In in H as [H1 H2]. now exists o.
  - intros [o [H1 [H2 E]]]. exists o. split; [exact E | ].
    apply filter_In. now split.
Qed.

(** Every assigned key is an official key or a short key. *)
Lemma writes_keys (titles : list Title) (k : string) :
  In k (map fst (writes titles)) ->
  (exists l, k = official_key l) \/ (exists l i, k = short_key l i).
Proof.
  intros H. apply in_map_iff in H as [[k' v] [E H]]. simpl in E. subst k'.
  apply in_writes in H as [o [_ [_ [[-> _] | [j [s [_ [-> _]]]]]]]].
  - left. now exists (lang o).
  - right. now exists (lang o), (S j).
Qed.

Lemma official_key_head (l : string) :
  exists r, official_key l = String "o" r.
Proof. rewrite official_key_eq. simpl. eauto. Qed.

Lemma short_key_head (l : string) (i : nat) :
  exists r, short_key l i = String "s" r.
Proof. rewrite short_key_eq. simpl. eauto. Qed.

(** The two first fields are never assigned again. *)
Lemma writes_keep (titles : list Title) (k : string) :
  k = "anime_id" \/ k = "main" -> last_write k (writes titles) = None.
Proof.
  intros Hk. apply last_write_none. intros H.
  apply writes_keys in H as [[l ->] | [l [i ->]]].
  - destruct (official_key_head l) as [r E]. rewrite E in Hk.
    destruct Hk; discriminate.
  - destruct (short_key_head l i) as [r E]. rewrite E in Hk.
    destruct Hk; discriminate.
Qed.

(** No short key is the first or second field. *)
Lemma short_key_fresh (l : string) (i : nat) (a : Z) (m : string) :
  lookup (short_key l i) [("anime_id", VInt a); ("main", VStr m)] = None.
Proof.
  destruct (short_key_head l i) as [r E]. rewrite E. reflexivity.
Qed.

(** ** Languages with distinct slug forms *)

Lemma distinct_slugs_spec (langs : list string) :
  distinct_slugs langs = true <->
  (forall a b, In a langs -> In b langs -> slugify a = slugify b -> a = b).
Proof.
  induction langs as [|l r IH]; simpl.
  - split; [intros _ a b [] | reflexivity].
  - rewrite andb_true_iff, forallb_forall, IH. split.
    + intros [Hl Hr] a b [<- | Ha] [<- | Hb] E.
      * reflexivity.
      * specialize (Hl b Hb). apply orb_true_iff in Hl as [Hl | Hl].
        -- symmetry. now apply String.eqb_eq.
        -- apply negb_true_iff, String.eqb_neq in Hl. now elim Hl.
      * specialize (Hl a Ha). apply orb_true_iff in Hl as [Hl | Hl].
        -- now apply String.eqb_eq.
        -- apply negb_true_iff, String.eqb_neq in Hl. now elim Hl.
      * now apply Hr.
    + intros H. split.
      * intros x Hx. destruct (String.eqb_spec x l) as [E | NE];
          [reflexivity | ]. simpl. apply negb_true_iff, String.eqb_neq.
        intros E. apply NE. apply H; auto.
      * intros a b Ha Hb. apply H; auto.
Qed.

(** With distinct slug forms among the official languages, a short key is
    assigned one value only. *)
Lemma short_write_unique (titles : list Title) (l : string) (i : nat)
  (v v' : value) :
  distinct_slugs (official_langs titles) = true ->
  In (short_key l i, v) (writes titles) ->
  In (short_key l i, v') (writes titles) ->
  v = v'.
Proof.
  intros D H H'. rewrite distinct_slugs_spec in D.
  apply in_writes in H as [o [Ho [Hoff H]]].
  apply in_writes in H' as [o' [Ho' [Hoff' H']]].
  destruct H as [[E _] | [j [s [Hn [E ->]]]]];
    [symmetry in E; now apply official_key_not_short in E | ].
  destruct H' as [[E' _] | [j' [s' [Hn' [E' ->]]]]];
    [symmetry in E'; now apply official_key_not_short in E' | ].
  apply short_key_inj in E as [E1 E2].
  apply short_key_inj in E' as [E1' E2'].
  assert (EL : lang o = lang o').
  { apply D.
    - apply in_official_langs. now exists o.
    - apply in_official_langs. now exists o'.
    - congruence. }
  assert (EJ : j = j') by lia.
  subst j'. rewrite <- EL in Hn'. congruence.
Qed.

Lemma in_keyed_langs_official (titles : list Title) (o : Title) :
  In o titles -> is_official o = true -> In (lang o) (keyed_langs titles).
Proof.
  intros H1 H2. unfold keyed_langs. apply in_map, filter_In.
  split; [exact H1 | now rewrite H2].
Qed.

Lemma in_keyed_langs_short (titles : list Title) (l : string) (j : nat)
  (s : string) :
  nth_error (short_names_list titles l) j = Some s ->
  In l (keyed_langs titles).
Proof.
  intros H. apply nth_error_In in H. unfold short_names_list in H.
  apply in_map_iff in H as [t [_ H]]. apply filter_In in H as [H1 H2].
  apply andb_true_iff in H2 as [H2 H3]. apply String.eqb_eq in H3. subst l.
  unfold keyed_langs. apply in_map, filter_In.
  split; [exact H1 | rewrite H2; apply orb_true_r].
Qed.

Lemma distinct_slugs_official (titles : list Title) :
  distinct_slugs (keyed_langs titles) = true ->
  distinct_slugs (official_langs titles) = true.
Proof.
  rewrite !distinct_slugs_spec. intros H a b Ha Hb.
  apply in_official_langs in Ha as [o [H1 [H2 <-]]].
  apply in_official_langs in Hb as [o' [H1' [H2' <-]]].
  apply H; now apply in_keyed_langs_official.
Qed.

Lemma find_app_first (A : Type) (p : A -> bool) (pre : list A) (x : A)
  (rest : list A) :
  forallb (fun y => negb (p y)) pre = true -> p x = true ->
  find p (pre ++ x :: rest) = Some x.
Proof.
  intros Hpre Hx. induction pre as [|y pre IH]; simpl.
  - now rewrite Hx.
  - simpl in Hpre. apply andb_true_iff in Hpre as [Hy Hpre].
    apply negb_true_iff in Hy. rewrite Hy. now apply IH.
Qed.

Lemma keys_fold_assign (ws : list (string * value)) (d1 d2 : document) :
  keys d1 = keys d2 ->
  keys (fold_left assign ws d1) = keys (fold_left assign ws d2).
Proof.
  revert d1 d2. induction ws as [|[k v] ws IH]; intros d1 d2 H; simpl.
  - exact H.
  - apply IH. unfold assign. simpl. now rewrite !keys_dict_set, H.
Qed.

Lemma no_officials (ts : list Title) :
  forallb (fun t => negb (is_official t) && negb (is_short t)) ts = true ->
  filter is_official ts = [].
Proof.
  induction ts as [|t ts IH]; simpl; [reflexivity | ].
  intros H. apply andb_true_iff in H as [Ht Hts].
  apply andb_true_iff in Ht as [Ht _]. apply negb_true_iff in Ht.
  rewrite Ht. now apply IH.
Qed.

(** * The entries *)

Example scenario_1 :
  normalize (mkAnime 1 [mkTitle "main" "x-jat" "Foo"; mkTitle "official" "en" "Foo EN"])
  = Return [("anime_id", VInt 1); ("main", VStr "Foo"); ("official_en", VStr "Foo EN")].
Proof. reflexivity. Qed.

Example slugify_x_jat : short_key "x-jat" 12 = "short_x_jat_12".
Proof. reflexivity. Qed.


(** C3, as the code has it: for every entry with a main title and neither
    official nor short titles, the document has exactly two fields, in this
    order: [anime_id], the integer id of the entry, and [main], the text of
    the main title. *)
Theorem main_only_document (anime : Anime) (main : Title) :
  find is_main (titles anime) = Some main ->
  forallb (fun t => negb (is_official t) && negb (is_short t)) (titles anime)
  = true ->
  normalize anime
  = Return [("anime_id", VInt (aid anime)); ("main", VStr (text main))].
Proof.
  intros Hmain Hnone. rewrite (normalize_writes _ Hmain). f_equal.
  unfold writes. now rewrite (no_officials _ Hnone).
Qed.

Lemma main_only_document_witness :
  normalize (mkAnime 7 [mkTitle "main" "x-jat" "Foo"; mkTitle "syn" "en" "Bar"])
  = Return [("anime_id", VInt 7); ("main", VStr "Foo")].
Proof.
  apply (@main_only_document
           (mkAnime 7 [mkTitle "main" "x-jat" "Foo"; mkTitle "syn" "en" "Bar"])
           (mkTitle "main" "x-jat" "Foo")); reflexivity.
Defined.

(** C3 as stated fails: the field that holds the id is named [anime_id];
    no document has a field [id]. *)
Lemma id_field_counterexample :
  ~ (exists doc,
       normalize (mkAnime 7 [mkTitle "main" "x-jat" "Foo"]) = Return doc
       /\ keys doc = ["id"; "main"]).
Proof. intros [doc [H K]]. injection H as <-. discriminate. Qed.

(** C9: an entry with two or more main titles is normalized without
    failure, and the [main] field of its document is the text of the first
    main title in document order. *)
Theorem first_main_wins (a : Z) (pre : list Title) (m1 : Title)
  (mid : list Title) (m2 : Title) (post : list Title) :
  forallb (fun t => negb (is_main t)) pre = true ->
  is_main m1 = true ->
  is_main m2 = true ->
  exists doc,
    normalize (mkAnime a (pre ++ m1 :: mid ++ m2 :: post)) = Return doc
    /\ lookup "main" doc = Some (VStr (text m1)).
Proof.
  intros Hpre H1 _.
  pose proof (find_app_first is_main pre m1 (mid ++ m2 :: post) Hpre H1) as F.
  rewrite (@normalize_writes (mkAnime a _) m1 F).
  eexists. split; [reflexivity | ].
  rewrite lookup_fold_assign, writes_keep by now right. reflexivity.
Qed.

Lemma first_main_wins_witness :
  exists doc,
    normalize
      (mkAnime 3 ([mkTitle "official" "en" "E"]
                    ++ mkTitle "main" "x-jat" "First"
                    :: [mkTitle "short" "en" "S"]
                    ++ mkTitle "main" "x-jat" "Second" :: []))
    = Return doc
    /\ lookup "main" doc = Some (VStr "First").
Proof.
  apply (@first_main_wins 3 [mkTitle "official" "en" "E"]
           (mkTitle "main" "x-jat" "First") [mkTitle "short" "en" "S"]
           (mkTitle "main" "x-jat" "Second") []); reflexivity.
Defined.

(** C8: two entries with the same titles and different ids give documents
    with the same fields in the same order and the same value in every
    field but [anime_id], which holds the id of each. *)
Theorem document_but_id (a1 a2 : Z) (ts : list Title) (m : Title) :
  find is_main ts = Some m ->
  exists d1 d2,
    normalize (mkAnime a1 ts) = Return d1
    /\ normalize (mkAnime a2 ts) = Return d2
    /\ keys d1 = keys d2
    /\ (forall k, k <> "anime_id" -> lookup k d1 = lookup k d2)
    /\ lookup "anime_id" d1 = Some (VInt a1)
    /\ lookup "anime_id" d2 = Some (VInt a2).
Proof.
  intros Hm.
  rewrite (@normalize_writes (mkAnime a1 ts) m Hm).
  rewrite (@normalize_writes (mkAnime a2 ts) m Hm).
  do 2 eexists. split; [reflexivity | split; [reflexivity | ]]. simpl.
  split; [now apply keys_fold_assign | ]. split.
  - intros k Hk. rewrite !lookup_fold_assign.
    destruct (last_write k (writes ts)); [reflexivity | ]. cbn [lookup].
    apply String.eqb_neq in Hk. rewrite String.eqb_sym in Hk. now rewrite Hk.
  - rewrite !lookup_fold_assign, writes_keep by now left. now split.
Qed.

Lemma document_but_id_witness :
  exists d1 d2,
    normalize (mkAnime 1 [mkTitle "main" "x-jat" "Foo";
                          mkTitle "official" "en" "Foo EN"]) = Return d1
    /\ normalize (mkAnime 2 [mkTitle "main" "x-jat" "Foo";
                             mkTitle "official" "en" "Foo EN"]) = Return d2
    /\ keys d1 = keys d2
    /\ (forall k, k <> "anime_id" -> lookup k d1 = lookup k d2)
    /\ lookup "anime_id" d1 = Some (VInt 1)
    /\ lookup "anime_id" d2 = Some (VInt 2).
Proof.
  apply (@document_but_id 1 2
           [mkTitle "main" "x-jat" "Foo"; mkTitle "official" "en" "Foo EN"]
           (mkTitle "main" "x-jat" "Foo")); reflexivity.
Defined.

Lemma in_block (titles : list Title) (o : Title) (k : string) (v : value) :
  In (k, v) (block titles o)
  <-> (k = official_key (lang o) /\ v = VStr (text o))
      \/ exists j s, nth_error (short_names_list titles (lang o)) j = Some s
           /\ k = short_key (lang o) (S j) /\ v = VStr s.
Proof.
  unfold block. simpl. split.
  - intros [H | H].
    + injection H as <- <-. now left.
    + right. apply in_map_iff in H as [[i s] [E H]].
      injection E as <- <-. apply in_enumerate in H as [j [-> H]].
      exists j, s. now repeat split.
  - intros [[-> ->] | [j [s [H [-> ->]]]]].
    + now left.
    + right. apply in_map_iff. exists (S j, s). split; [reflexivity | ].
      apply in_enumerate. exists j. now split.
Qed.

(** The assignments of one official title end with its own text under its
    key. *)
Lemma last_write_block (titles : list Title) (o : Title) :
  last_write (official_key (lang o)) (block titles o)
  = Some (VStr (text o)).
Proof.
  apply last_write_agree.
  - unfold block. simpl. now left.
  - intros v' H. apply in_block in H as [[_ ->] | [j [s [_ [E _]]]]].
    + reflexivity.
    + now apply official_key_not_short in E.
Qed.

(** C5, as the code has it: the official key of a language holds the text
    of the last official title of that language in document order, when no
    official title of another language with the same slug form comes after
    it. *)
Theorem last_official_wins (a : Z) (pre : list Title) (o : Title)
  (post : list Title) (m : Title) :
  find is_main (pre ++ o :: post) = Some m ->
  is_official o = true ->
  forallb (fun t => negb (is_official t && (lang t =? lang o))) post = true ->
  forallb (fun t => negb (is_official t) || (lang t =? lang o)
                    || negb (slugify (lang t) =? slugify (lang o))) post
  = true ->
  exists doc,
    normalize (mkAnime a (pre ++ o :: post)) = Return doc
    /\ lookup (official_key (lang o)) doc = Some (VStr (text o)).
Proof.
  intros Hm Ho Hlast Hslug.
  rewrite (@normalize_writes (mkAnime a _) m Hm).
  eexists. split; [reflexivity | ].
  rewrite lookup_fold_assign. cbn [titles]. unfold writes.
  rewrite filter_app. cbn [filter]. rewrite Ho.
  rewrite flat_map_app. cbn [flat_map].
  rewrite last_write_app, last_write_app.
  assert (N : last_write (official_key (lang o))
                (flat_map (block (pre ++ o :: post)) (filter is_official post))
              = None).
  { apply last_write_none. intros H.
    apply in_map_iff in H as [[k v] [E H]]. simpl in E. subst k.
    apply in_flat_map in H as [o' [Ho' H]].
    apply filter_In in Ho' as [Hin Hoff].
    rewrite forallb_forall in Hlast, Hslug.
    specialize (Hlast o' Hin). specialize (Hslug o' Hin).
    rewrite Hoff in Hlast, Hslug. simpl in Hlast, Hslug.
    apply negb_true_iff in Hlast. rewrite Hlast in Hslug. simpl in Hslug.
    apply negb_true_iff, String.eqb_neq in Hslug.
    apply in_block in H as [[E _] | [j [s [_ [E _]]]]].
    - apply Hslug. symmetry. now apply official_key_inj.
    - now apply official_key_not_short in E. }
  rewrite N. now rewrite last_write_block.
Qed.

Lemma last_official_wins_witness :
  exists doc,
    normalize
      (mkAnime 5 ([mkTitle "main" "x-jat" "M"; mkTitle "official" "EN" "W";
                   mkTitle "official" "en" "X"]
                    ++ mkTitle "official" "en" "Y"
                    :: [mkTitle "official" "fr" "Z"]))
    = Return doc
    /\ lookup (official_key "en") doc = Some (VStr "Y").
Proof.
  apply (@last_official_wins 5
           [mkTitle "main" "x-jat" "M"; mkTitle "official" "EN" "W";
            mkTitle "official" "en" "X"]
           (mkTitle "official" "en" "Y") [mkTitle "official" "fr" "Z"]
           (mkTitle "main" "x-jat" "M")); reflexivity.
Defined.

(** C5 as stated fails when an official title of another language with the
    same slug form follows: with officials [en] X, [en] Y, [EN] Z the key
    [official_en] holds Z, not Y, the last official title of language
    [en]. *)
Lemma last_official_counterexample :
  ~ (exists doc,
       normalize
         (mkAnime 5 [mkTitle "main" "x-jat" "M"; mkTitle "official" "en" "X";
                     mkTitle "official" "en" "Y"; mkTitle "official" "EN" "Z"])
       = Return doc
       /\ lookup (official_key "en") doc = Some (VStr "Y")).
Proof. intros [doc [H K]]. injection H as <-. discriminate. Qed.

(** C4, as the code has it: in an entry whose official and short languages
    have distinct slug forms, the [j]-th short title of a language (counted
    from 1 in document order) is stored under [short_<language>_<j>] when
    an official title of that language exists anywhere in the entry, and
    that key is absent when none exists; so official [en] "Official" with
    shorts [en] "A" and "B" gives [official_en], [short_en_1], [short_en_2]. *)
Theorem short_fields_follow_officials :
  (forall (a : Z) (ts : list Title) (m : Title),
      find is_main ts = Some m ->
      distinct_slugs (keyed_langs ts) = true ->
      exists doc,
        normalize (mkAnime a ts) = Return doc
        /\ forall l j s,
            nth_error (short_names_list ts l) j = Some s ->
            lookup (short_key l (S j)) doc
            = if existsb (fun t => is_official t && (lang t =? l)) ts
              then Some (VStr s) else None)
  /\ normalize
       (mkAnime 1 [mkTitle "main" "x-jat" "M"; mkTitle "short" "en" "A";
                   mkTitle "short" "en" "B";
                   mkTitle "official" "en" "Official"])
     = Return [("anime_id", VInt 1); ("main", VStr "M");
               ("official_en", VStr "Official");
               ("short_en_1", VStr "A"); ("short_en_2", VStr "B")].
Proof.
  split; [ | reflexivity].
  intros a ts m Hm D.
  rewrite (@normalize_writes (mkAnime a ts) m Hm).
  eexists. split; [reflexivity | ].
  intros l j s Hn. cbn [titles aid].
  rewrite lookup_fold_assign, short_key_fresh.
  destruct (existsb (fun t => is_official t && (lang t =? l)) ts) eqn:E.
  - apply existsb_exists in E as [o [Ho E]].
    apply andb_true_iff in E as [Hoff El]. apply String.eqb_eq in El.
    subst l.
    assert (W : In (short_key (lang o) (S j), VStr s) (writes ts)).
    { apply in_writes. exists o. split; [exact Ho | split; [exact Hoff | ]].
      right. exists j, s. now repeat split. }
    rewrite (@last_write_agree _ (VStr s)); [reflexivity | | ].
    + apply in_map_iff. now exists (short_key (lang o) (S j), VStr s).
    + intros v' H. apply (@short_write_unique ts (lang o) (S j)).
      * now apply distinct_slugs_official.
      * exact H.
      * exact W.
  - replace (last_write (short_key l (S j)) (writes ts)) with (@None value);
      [reflexivity | ].
    symmetry. apply last_write_none. intros H.
    apply in_map_iff in H as [[k v] [Ek H]]. simpl in Ek. subst k.
    apply in_writes in H as [o [Ho [Hoff H]]].
    destruct H as [[Ek _] | [j' [s' [_ [Ek _]]]]].
    + symmetry in Ek. now apply official_key_not_short in Ek.
    + apply short_key_inj in Ek as [Ek _].
      rewrite distinct_slugs_spec in D.
      assert (El : lang o = l).
      { apply D.
        - now apply in_keyed_langs_official.
        - now apply (in_keyed_langs_short _ _ _ Hn).
        - congruence. }
      assert (X : existsb (fun t => is_official t && (lang t =? l)) ts = true).
      { apply existsb_exists. exists o. split; [exact Ho | ].
        rewrite Hoff. simpl. now apply String.eqb_eq. }
      congruence.
Qed.

Lemma short_fields_follow_officials_witness :
  exists doc,
    normalize
      (mkAnime 2 [mkTitle "short" "en" "A"; mkTitle "main" "x-jat" "M";
                  mkTitle "short" "fr" "F"; mkTitle "official" "en" "O";
                  mkTitle "short" "en" "B"])
    = Return doc
    /\ lookup (short_key "en" 2) doc = Some (VStr "B")
    /\ lookup (short_key "fr" 1) doc = None.
Proof.
  destruct (proj1 short_fields_follow_officials 2%Z
              [mkTitle "short" "en" "A"; mkTitle "main" "x-jat" "M";
               mkTitle "short" "fr" "F"; mkTitle "official" "en" "O";
               mkTitle "short" "en" "B"]
              (mkTitle "main" "x-jat" "M") eq_refl eq_refl)
    as [doc [H K]].
  exists doc. split; [exact H | ]. split.
  - exact (K "en" 1 "B" eq_refl).
  - exact (K "fr" 0 "F" eq_refl).
Defined.

(** C4 as stated fails when two official languages have the same slug
    form: with officials [en] and [EN] and shorts [en] "A" and [EN] "B",
    both shorts are assigned to [short_en_1] and the document keeps "B"
    only, although the short "A" has an official title of its language. *)
Lemma short_field_counterexample :
  ~ (exists doc,
       normalize
         (mkAnime 2 [mkTitle "main" "x-jat" "M"; mkTitle "official" "en" "O1";
                     mkTitle "official" "EN" "O2"; mkTitle "short" "en" "A";
                     mkTitle "short" "EN" "B"])
       = Return doc
       /\ exists k, lookup k doc = Some (VStr "A")).
Proof.
  intros [doc [H [k K]]].
  change (Return [("anime_id", VInt 2); ("main", VStr "M");
                  ("official_en", VStr "O2"); ("short_en_1", VStr "B")]
          = Return doc) in H.
  injection H as <-. cbn [lookup] in K.
  repeat match type of K with
         | (if ?b then _ else _) = _ => destruct b; [discriminate | ]
         end.
  discriminate.
Qed.

Lemma short_names_list_shorts (ts : list Title) (l : string) :
  short_names_list ts l
  = map text (filter (fun t => lang t =? l) (filter is_short ts)).
Proof.
  unfold short_names_list. f_equal.
  induction ts as [|t ts IH]; simpl; [reflexivity | ].
  destruct (is_short t); simpl; [ | exact IH].
  destruct (lang t =? l); now rewrite IH.
Qed.

Lemma same_langs_spec (l1 l2 : list string) :
  same_langs l1 l2 = true -> forall x, In x l1 <-> In x l2.
Proof.
  unfold same_langs. rewrite andb_true_iff, !forallb_forall.
  intros [H1 H2] x. split; intros H.
  - apply H1, existsb_exists in H as [y [Hy E]].
    apply String.eqb_eq in E. now subst y.
  - apply H2, existsb_exists in H as [y [Hy E]].
    apply String.eqb_eq in E. now subst y.
Qed.

(** The assignments to short keys are the same in two entries with the same
    short titles when the official languages of the first are official
    languages of the second. *)
Lemma short_write_transfer (ts ts' : list Title) (l : string) (i : nat)
  (v : value) :
  filter is_short ts' = filter is_short ts ->
  (forall x, In x (official_langs ts) -> In x (official_langs ts')) ->
  In (short_key l i, v) (writes ts) ->
  In (short_key l i, v) (writes ts').
Proof.
  intros Hs Hl H.
  apply in_writes in H as [o [Ho [Hoff H]]].
  destruct H as [[E _] | [j [s [Hn [E ->]]]]];
    [symmetry in E; now apply official_key_not_short in E | ].
  assert (Hin : In (lang o) (official_langs ts')).
  { apply Hl, in_official_langs. now exists o. }
  apply in_official_langs in Hin as [o' [Ho' [Hoff' El]]].
  apply in_writes. exists o'. split; [exact Ho' | split; [exact Hoff' | ]].
  right. exists j, s. rewrite El, E.
  split; [ | now split].
  rewrite short_names_list_shorts, Hs, <- short_names_list_shorts.
  exact Hn.
Qed.

Lemma short_last_write_transfer (ts ts' : list Title) (l : string) (i : nat)
  (v : value) :
  filter is_short ts' = filter is_short ts ->
  (forall x, In x (official_langs ts) -> In x (official_langs ts')) ->
  distinct_slugs (official_langs ts') = true ->
  last_write (short_key l i) (writes ts) = Some v ->
  last_write (short_key l i) (writes ts') = Some v.
Proof.
  intros Hs Hl D H. apply last_write_in in H.
  pose proof (@short_write_transfer ts ts' l i v Hs Hl H) as H'.
  apply last_write_agree.
  - apply in_map_iff. now exists (short_key l i, v).
  - intros v' Hv'. now apply (@short_write_unique ts' l i).
Qed.

(** C10, as the code has it: among entries whose official languages have
    distinct slug forms, the short fields depend only on the short titles
    and on which languages have an official title: two entries with the
    same short titles and the same set of official languages, however many
    official titles each language has, hold the same value, or nothing,
    under every short key. *)
Theorem short_fields_by_official_languages (a a' : Z) (ts ts' : list Title)
  (m m' : Title) :
  find is_main ts = Some m ->
  find is_main ts' = Some m' ->
  filter is_short ts' = filter is_short ts ->
  same_langs (official_langs ts) (official_langs ts') = true ->
  distinct_slugs (official_langs ts) = true ->
  exists doc doc',
    normalize (mkAnime a ts) = Return doc
    /\ normalize (mkAnime a' ts') = Return doc'
    /\ forall l i, lookup (short_key l i) doc' = lookup (short_key l i) doc.
Proof.
  intros Hm Hm' Hs Hl D.
  pose proof (same_langs_spec _ _ Hl) as L.
  assert (D' : distinct_slugs (official_langs ts') = true).
  { rewrite distinct_slugs_spec in *. intros x y Hx Hy.
    apply D; now apply L. }
  rewrite (@normalize_writes (mkAnime a ts) m Hm).
  rewrite (@normalize_writes (mkAnime a' ts') m' Hm').
  do 2 eexists. split; [reflexivity | split; [reflexivity | ]].
  intros l i. cbn [titles aid].
  rewrite !lookup_fold_assign, !short_key_fresh.
  destruct (last_write (short_key l i) (writes ts)) as [v | ] eqn:E.
  - assert (X : last_write (short_key l i) (writes ts') = Some v).
    { apply (@short_last_write_transfer ts ts'); try assumption.
      intros x. apply L. }
    now rewrite X.
  - destruct (last_write (short_key l i) (writes ts')) as [v' | ] eqn:E';
      [ | reflexivity].
    assert (X : last_write (short_key l i) (writes ts) = Some v').
    { apply (@short_last_write_transfer ts' ts); try assumption.
      - now symmetry.
      - intros x. apply L. }
    congruence.
Qed.

Lemma short_fields_by_official_languages_witness :
  exists doc doc',
    normalize
      (mkAnime 4 [mkTitle "main" "x-jat" "M"; mkTitle "official" "en" "O";
                  mkTitle "short" "en" "A"; mkTitle "short" "en" "B"])
    = Return doc
    /\ normalize
         (mkAnime 4 [mkTitle "official" "en" "P"; mkTitle "main" "x-jat" "M";
                     mkTitle "official" "en" "O"; mkTitle "short" "en" "A";
                     mkTitle "official" "en" "Q"; mkTitle "short" "en" "B"])
       = Return doc'
    /\ forall l i, lookup (short_key l i) doc' = lookup (short_key l i) doc.
Proof.
  apply (@short_fields_by_official_languages 4 4
           [mkTitle "main" "x-jat" "M"; mkTitle "official" "en" "O";
            mkTitle "short" "en" "A"; mkTitle "short" "en" "B"]
           [mkTitle "official" "en" "P"; mkTitle "main" "x-jat" "M";
            mkTitle "official" "en" "O"; mkTitle "short" "en" "A";
            mkTitle "official" "en" "Q"; mkTitle "short" "en" "B"]
           (mkTitle "main" "x-jat" "M") (mkTitle "main" "x-jat" "M"));
    reflexivity.
Defined.

(** C10 as stated fails when two official languages have the same slug
    form: with officials [en] and [EN] and shorts [en] "A" and [EN] "B",
    the key [short_en_1] holds "B"; one more official title of language
    [en] at the end runs the scan of the [en] shorts again and the key
    then holds "A". *)
Lemma repeated_official_counterexample :
  ~ (exists doc doc',
       normalize
         (mkAnime 2 [mkTitle "main" "x-jat" "M"; mkTitle "official" "en" "O1";
                     mkTitle "official" "EN" "O2"; mkTitle "short" "en" "A";
                     mkTitle "short" "EN" "B"])
       = Return doc
       /\ normalize
            (mkAnime 2 [mkTitle "main" "x-jat" "M";
                        mkTitle "official" "en" "O1";
                        mkTitle "official" "EN" "O2"; mkTitle "short" "en" "A";
                        mkTitle "short" "EN" "B"; mkTitle "official" "en" "O1"])
          = Return doc'
       /\ lookup (short_key "en" 1) doc' = lookup (short_key "en" 1) doc).
Proof.
  intros [doc [doc' [H [H' K]]]].
  injection H as <-. injection H' as <-. discriminate.
Qed.

(** * The keys *)

Lemma kept_char (c : ascii) :
  is_lower c || is_digit c = true ->
  is_alnum c = true /\ lower c = c /\ under_char c = c.
Proof.
  intros H. repeat split.
  - unfold is_alnum. apply orb_true_iff in H as [-> | ->];
      [apply orb_true_r | reflexivity].
  - unfold lower. replace (is_upper c) with false; [reflexivity | ].
    symmetry. unfold is_lower, is_digit, is_upper in *.
    apply orb_true_iff in H as [H | H]; apply andb_true_iff in H as [H1 H2];
      apply Nat.leb_le in H1, H2; apply andb_false_iff.
    + right. apply Nat.leb_gt. lia.
    + left. apply Nat.leb_gt. lia.
  - unfold under_char. destruct (Ascii.eqb_spec c "-") as [-> | _];
      [discriminate | reflexivity].
Qed.

(** On a canonical tag the slug only changes hyphens into underscores. *)
Lemma slug_canon (s : string) :
  forall p, canon p s = true ->
  slug p s = match p with Gap => String "_" (under s) | _ => under s end.
Proof.
  induction s as [|c r IH]; intros p H.
  - now destruct p.
  - cbn [canon] in H. cbn [slug under].
    destruct (is_lower c || is_digit c) eqn:K.
    + destruct (kept_char _ K) as [-> [-> ->]].
      rewrite (IH Word H). now destruct p.
    + destruct (Ascii.eqb_spec c "-") as [-> | _]; [ | discriminate].
      destruct p; try discriminate.
      change (is_alnum "-") with false. cbv iota. cbn [skip].
      now rewrite (IH Gap H).
Qed.

Lemma canon_alphabet (s : string) :
  forall p, canon p s = true -> tag_alphabet s = true.
Proof.
  induction s as [|c r IH]; intros p H; [reflexivity | ].
  cbn [canon] in H. cbn [tag_alphabet].
  destruct (is_lower c || is_digit c) eqn:K.
  - destruct (kept_char _ K) as [-> _]. simpl. now apply (IH Word).
  - destruct (Ascii.eqb c "-"); [ | discriminate].
    rewrite orb_true_r. simpl. destruct p; try discriminate.
    now apply (IH Gap).
Qed.

Lemma under_char_inj (c d : ascii) :
  is_alnum c || Ascii.eqb c "-" = true ->
  is_alnum d || Ascii.eqb d "-" = true ->
  under_char c = under_char d -> c = d.
Proof.
  unfold under_char. intros Hc Hd.
  destruct (Ascii.eqb_spec c "-") as [-> | Nc],
           (Ascii.eqb_spec d "-") as [-> | Nd]; intros E.
  - reflexivity.
  - subst d. discriminate.
  - subst c. discriminate.
  - exact E.
Qed.

Lemma under_inj (s t : string) :
  tag_alphabet s = true -> tag_alphabet t = true ->
  under s = under t -> s = t.
Proof.
  revert t. induction s as [|c s IH]; intros [|d t]; simpl;
    try discriminate; [reflexivity | ].
  intros Hs Ht E. apply andb_true_iff in Hs as [Hc Hs].
  apply andb_true_iff in Ht as [Hd Ht]. injection E as E1 E2.
  f_equal; [now apply under_char_inj | now apply IH].
Qed.

Lemma slugify_canonical_inj (s t : string) :
  canonical s = true -> canonical t = true ->
  slugify s = slugify t -> s = t.
Proof.
  unfold canonical, slugify. intros Hs Ht.
  rewrite (slug_canon _ _ Hs), (slug_canon _ _ Ht).
  apply under_inj; eapply canon_alphabet; eassumption.
Qed.

(** C7, as the code has it: over languages made of ASCII letters, digits
    and hyphens, two (role, language, occurrence) triples get the same key
    exactly when they have the same role, the same occurrence and languages
    of the same slug form; so distinct triples get distinct keys when the
    languages are in canonical form (lower case, single hyphens between
    letters or digits), as [en] and [x-jat]. *)
Theorem key_of_same_slug (f g : field) :
  tag_alphabet (language_of f) = true ->
  tag_alphabet (language_of g) = true ->
  (key_of f = key_of g <-> same_slug f g)
  /\ (canonical (language_of f) = true ->
      canonical (language_of g) = true ->
      f <> g -> key_of f <> key_of g).
Proof.
  intros _ _.
  assert (K : key_of f = key_of g <-> same_slug f g).
  { destruct f as [l1 | l1 i], g as [l2 | l2 j]; simpl.
    - apply official_key_inj.
    - split; [apply official_key_not_short | tauto].
    - split; [ | tauto]. intros H. symmetry in H.
      now apply official_key_not_short in H.
    - apply short_key_inj. }
  split; [exact K | ].
  intros Cf Cg N E. apply N. apply K in E.
  destruct f as [l1 | l1 i], g as [l2 | l2 j]; simpl in *; try contradiction.
  - f_equal. now apply slugify_canonical_inj.
  - destruct E as [E ->]. f_equal. now apply slugify_canonical_inj.
Qed.

Lemma key_of_same_slug_witness :
  (key_of (Short "x-jat" 2) = key_of (Short "x-jat" 1)
   <-> same_slug (Short "x-jat" 2) (Short "x-jat" 1))
  /\ key_of (Short "x-jat" 2) <> key_of (Short "x-jat" 1).
Proof.
  destruct (@key_of_same_slug (Short "x-jat" 2) (Short "x-jat" 1)
              eq_refl eq_refl) as [K I].
  split; [exact K | ].
  apply I; [reflexivity | reflexivity | discriminate].
Defined.

(** C7 as stated fails: [EN] and [en] are two languages over ASCII letters
    and both give the key [official_en]. *)
Lemma key_injective_counterexample :
  ~ (tag_alphabet "EN" = true -> tag_alphabet "en" = true ->
     Official "EN" <> Official "en" ->
     key_of (Official "EN") <> key_of (Official "en")).
Proof.
  intros H. apply H; try reflexivity. discriminate.
Qed.

(** * The run *)

Lemma batches_app (t1 t2 : list event) :
  batches (t1 ++ t2) = batches t1 ++ batches t2.
Proof.
  induction t1 as [|e t1 IH]; simpl; [reflexivity | ].
  destruct e; simpl; now rewrite IH.
Qed.

Lemma step_full (n : nat) :
  (S n) mod 500 = 0 -> n mod 500 = 499 /\ (S n) / 500 = S (n / 500).
Proof.
  intros H.
  pose proof (Nat.div_mod_eq n 500) as E.
  pose proof (Nat.div_mod_eq (S n) 500) as E'.
  pose proof (Nat.mod_upper_bound n 500) as B.
  rewrite H in E'. lia.
Qed.

Lemma step_part (n : nat) :
  (S n) mod 500 <> 0 ->
  (S n) mod 500 = S (n mod 500) /\ (S n) / 500 = n / 500.
Proof.
  intros H.
  pose proof (Nat.div_mod_eq n 500) as E.
  pose proof (Nat.div_mod_eq (S n) 500) as E'.
  pose proof (Nat.mod_upper_bound n 500) as B.
  pose proof (Nat.mod_upper_bound (S n) 500) as B'.
  lia.
Qed.

Section Loop.

Variable w : World.
Hypothesis accepting : forall tr b, accepts w tr b = true.
Variables (idx : string) (total : nat).

(** An entry that closes a batch of 500. *)
Lemma loop_full (anime : Anime) (rest : list Anime) (index : nat)
  (q : list document) (tr : list event) (d : document) :
  normalize anime = Return d ->
  index mod 500 = 0 ->
  loop w idx total (anime :: rest) index q tr
  = loop w idx total rest (S index) []
      (tr ++ [AddDocuments idx (q ++ [d]);
              Stdout (("Indexing " ++ str index ++ " of " ++ str total
                      ++ "...") ++ cr)%string;
              Sleep 1]).
Proof.
  intros Hd Hi. cbn [loop]. unfold bind at 1, lift. rewrite Hd, Hi.
  cbn [Nat.eqb]. unfold bind, add_documents, print, emit.
  rewrite accepting. now rewrite <- !List.app_assoc.
Qed.

(** An entry that stays in the queue. *)
Lemma loop_part (anime : Anime) (rest : list Anime) (index : nat)
  (q : list document) (tr : list event) (d : document) :
  normalize anime = Return d ->
  index mod 500 <> 0 ->
  loop w idx total (anime :: rest) index q tr
  = loop w idx total rest (S index) (q ++ [d]) tr.
Proof.
  intros Hd Hi. cbn [loop]. unfold bind at 1, lift. rewrite Hd.
  apply Nat.eqb_neq in Hi. now rewrite Hi.
Qed.

(** An entry without a main title stops the loop where it stands. *)
Lemma loop_fail (anime : Anime) (rest : list Anime) (index : nat)
  (q : list document) (tr : list event) (e : exn) :
  normalize anime = Uncaught e ->
  loop w idx total (anime :: rest) index q tr = (Uncaught e, tr).
Proof.
  intros Hd. cbn [loop]. unfold bind at 1, lift. now rewrite Hd.
Qed.

(** The loop over a prefix of good entries: after [n] entries, with a
    queue of [n mod 500] documents, it hands over the full batches that
    the prefix completes and goes on with the rest. *)
Lemma loop_prefix (pre rest : list Anime) :
  forall (ds : list document) (n : nat) (q : list document)
         (tr : list event),
    documents_of pre = Some ds ->
    List.length q = n mod 500 ->
    exists bs q' tr',
      loop w idx total (pre ++ rest) (S n) q tr
      = loop w idx total rest (S (n + List.length pre)) q' tr'
      /\ batches tr' = batches tr ++ bs
      /\ map (@List.length document) bs
         = repeat 500 ((n + List.length pre) / 500 - n / 500)
      /\ List.length q' = (n + List.length pre) mod 500
      /\ List.concat bs ++ q' = q ++ ds.
Proof.
  induction pre as [|anime pre IH]; intros ds n q tr Hds Hq.
  - injection Hds as <-. exists [], q, tr. cbn [List.app List.length].
    rewrite Nat.add_0_r, Nat.sub_diag, !List.app_nil_r. now repeat split.
  - cbn [documents_of] in Hds.
    destruct (normalize anime) as [d | | ] eqn:Hd; try discriminate.
    destruct (documents_of pre) as [ds' | ] eqn:Hds'; try discriminate.
    injection Hds as <-. cbn [List.length].
    change ((anime :: pre) ++ rest) with (anime :: pre ++ rest).
    replace (n + S (List.length pre)) with (S n + List.length pre) by lia.
    pose proof (Nat.Div0.div_le_mono (S n) (S n + List.length pre) 500
                  ltac:(lia)) as Mono.
    destruct (Nat.eq_dec ((S n) mod 500) 0) as [Hi | Hi].
    + rewrite (@loop_full anime (pre ++ rest) (S n) q tr d Hd Hi).
      destruct (@step_full n Hi) as [Hn Hdiv].
      destruct (IH ds' (S n) []
                  (tr ++ [AddDocuments idx (q ++ [d]);
                          Stdout (("Indexing " ++ str (S n) ++ " of "
                                  ++ str total ++ "...") ++ cr)%string;
                          Sleep 1])
                  eq_refl ltac:(now rewrite Hi))
        as [bs [q' [tr' [E [B [L [Q C]]]]]]].
      exists ((q ++ [d]) :: bs), q', tr'.
      split; [exact E | ]. split.
      { rewrite B, batches_app. cbn [batches]. now rewrite <- List.app_assoc. }
      split.
      { cbn [map]. rewrite L, length_app. cbn [List.length].
        rewrite Hq, Hn, Hdiv.
        replace ((S n + List.length pre) / 500 - n / 500)
          with (S ((S n + List.length pre) / 500 - S (n / 500))) by lia.
        reflexivity. }
      split; [exact Q | ].
      cbn [List.concat]. rewrite <- !List.app_assoc. cbn [List.app] in C. now rewrite C.
    + rewrite (@loop_part anime (pre ++ rest) (S n) q tr d Hd Hi).
      destruct (@step_part n Hi) as [Hn Hdiv].
      destruct (IH ds' (S n) (q ++ [d]) tr eq_refl
                  ltac:(rewrite length_app; cbn [List.length]; lia))
        as [bs [q' [tr' [E [B [L [Q C]]]]]]].
      exists bs, q', tr'.
      split; [exact E | ]. split; [exact B | ].
      split; [now rewrite L, Hdiv | ].
      split; [exact Q | ].
      now rewrite C, <- List.app_assoc.
Qed.

End Loop.

Lemma main_absent (w : World) (args : Args) :
  healthy w = true -> dump w = None ->
  main w args [] = (SysExit not_found, connected w args).
Proof.
  intros Hh Hd.
  unfold main, create_connection, get_or_create_index, parse_and_index,
    connected, bind, emit, ret, sys_exit.
  rewrite Hh, Hd.
  now destruct (find (fun index => index =? index_uid args) (indexes w)).
Qed.

Lemma main_present (w : World) (args : Args) (animes : list Anime) :
  healthy w = true -> dump w = Some animes -> 1 <= List.length animes ->
  main w args []
  = bind (loop w (index_uid args) (List.length animes) animes 1 [])
      (fun data_queue =>
         bind (add_documents w (index_uid args) data_queue)
           (fun _ =>
              print ("Indexed all " ++ str (List.length animes)
                     ++ " animes! Have fun!") nl))
      (connected w args).
Proof.
  intros Hh Hd Hn.
  unfold main, create_connection, get_or_create_index, parse_and_index,
    connected. unfold bind at 1 2 3 4 5 6 7 8, emit, ret.
  rewrite Hh, Hd.
  destruct (List.length animes =? 0)%nat eqn:E;
    [apply Nat.eqb_eq in E; lia | ].
  now destruct (find (fun index => index =? index_uid args) (indexes w)).
Qed.

Lemma batches_connected (w : World) (args : Args) :
  batches (connected w args) = [].
Proof.
  unfold connected.
  now destruct (find (fun index => index =? index_uid args) (indexes w)).
Qed.

(** C1, as the code has it: when the server is up and the dump file is
    absent, the run stops with [sys.exit] and the file-not-found message,
    the exit status is 1 and no document is added; but the index is not
    left untouched: [get_or_create_index] has already deleted all its
    documents, before the attempt to read the dump. *)
Theorem absent_dump (w : World) (args : Args) :
  healthy w = true ->
  dump w = None ->
  main w args []
  = (SysExit not_found,
     [Health (url args);
      GetIndexes;
      match find (fun index => index =? index_uid args) (indexes w) with
      | Some _ => GetIndex (index_uid args)
      | None => CreateIndex (index_uid args) (index_name args)
      end;
      DeleteAllDocuments (index_uid args);
      Parse "anime-titles.xml"])
  /\ exit_status (fst (main w args [])) = 1%Z
  /\ batches (snd (main w args [])) = [].
Proof.
  intros Hh Hd. rewrite (@main_absent w args Hh Hd).
  split; [reflexivity | split; [reflexivity | apply batches_connected]].
Qed.

Lemma absent_dump_witness :
  main (server None) default_args []
  = (SysExit not_found,
     [Health "http://127.0.0.1:7700"; GetIndexes; GetIndex "animes";
      DeleteAllDocuments "animes"; Parse "anime-titles.xml"])
  /\ exit_status (fst (main (server None) default_args [])) = 1%Z
  /\ batches (snd (main (server None) default_args [])) = [].
Proof.
  apply (@absent_dump (server None) default_args); reflexivity.
Defined.

(** C1 as stated fails: with the dump absent the run does exit with a
    non-zero status, but its trace holds the call that deletes all the
    documents of the index. *)
Lemma index_untouched_counterexample :
  ~ (exit_status (fst (main (server None) default_args [])) <> 0%Z
     /\ existsb is_delete (snd (main (server None) default_args [])) = false).
Proof. intros [_ H]. discriminate. Qed.

(** C2, as the code has it: for a catalog of N >= 1 entries that all have a
    main title, with the server up and taking every batch, the run ends
    normally after N / 500 calls of [add_documents] with 500 documents each
    and one last call with the N mod 500 remaining documents, which is made
    also when none remains; the batches put end to end are the documents of
    the entries in order.  1200 entries give three calls, of 500, 500 and
    200 documents. *)
Theorem batches_of_run (w : World) (args : Args) (animes : list Anime)
  (ds : list document) :
  healthy w = true ->
  (forall tr b, accepts w tr b = true) ->
  dump w = Some animes ->
  1 <= List.length animes ->
  documents_of animes = Some ds ->
  exists tr,
    main w args [] = (Return tt, tr)
    /\ map (@List.length document) (batches tr)
       = repeat 500 (List.length animes / 500) ++ [List.length animes mod 500]
    /\ List.concat (batches tr) = ds
    /\ (List.length animes = 1200 ->
        map (@List.length document) (batches tr) = [500; 500; 200]).
Proof.
  intros Hh Ha Hd Hn Hds.
  rewrite (@main_present w args animes Hh Hd Hn).
  destruct (@loop_prefix w Ha (index_uid args) (List.length animes) animes []
              ds 0 [] (connected w args) Hds eq_refl)
    as [bs [q [tr [E [B [L [Q C]]]]]]].
  rewrite List.app_nil_r in E. cbn [loop Nat.add List.app] in *.
  rewrite batches_connected in B. cbn [List.app] in B.
  rewrite Nat.Div0.div_0_l, Nat.sub_0_r in L.
  unfold bind at 1. rewrite E. unfold ret.
  unfold bind, add_documents, print, emit. rewrite Ha.
  eexists. split; [reflexivity | ].
  assert (S : map (@List.length document)
                (batches ((tr ++ [AddDocuments (index_uid args) q])
                          ++ [Stdout (("Indexed all "
                                      ++ str (List.length animes)
                                      ++ " animes! Have fun!") ++ nl)%string]))
              = repeat 500 (List.length animes / 500)
                ++ [List.length animes mod 500]).
  { rewrite !batches_app, B. cbn [batches]. rewrite List.app_nil_r.
    rewrite map_app, L. cbn [map]. now rewrite Q. }
  split; [exact S | ]. split.
  - rewrite !batches_app, B. cbn [batches]. rewrite List.app_nil_r.
    rewrite concat_app. cbn [List.concat]. now rewrite List.app_nil_r.
  - intros N. rewrite S, N. reflexivity.
Qed.

Lemma batches_of_run_witness :
  exists tr,
    main (server (Some (catalog 3))) default_args [] = (Return tt, tr)
    /\ map (@List.length document) (batches tr)
       = repeat 500 (List.length (catalog 3) / 500)
         ++ [List.length (catalog 3) mod 500]
    /\ List.concat (batches tr)
       = [[("anime_id", VInt 1); ("main", VStr "Title")];
          [("anime_id", VInt 2); ("main", VStr "Title")];
          [("anime_id", VInt 3); ("main", VStr "Title")]]
    /\ (List.length (catalog 3) = 1200 ->
        map (@List.length document) (batches tr) = [500; 500; 200]).
Proof.
  apply (@batches_of_run (server (Some (catalog 3))) default_args (catalog 3));
    try reflexivity.
  simpl; lia.
Defined.

(** C2 as stated fails when 500 divides N: a catalog of 500 entries gives
    two calls of [add_documents], the second one with no document, where
    ceil(500 / 500) is 1. *)
Lemma empty_flush_counterexample :
  ~ (List.length
       (batches (snd (main (server (Some (catalog 500))) default_args [])))
     = (500 + 499) / 500).
Proof. vm_compute. discriminate. Qed.

Example batches_of_500 :
  map (@List.length document)
    (batches (snd (main (server (Some (catalog 500))) default_args [])))
  = [500; 0].
Proof. vm_compute. reflexivity. Qed.

Example batches_of_1200 :
  map (@List.length document)
    (batches (snd (main (server (Some (catalog 1200))) default_args [])))
  = [500; 500; 200].
Proof. vm_compute. reflexivity. Qed.

(** C6: an entry without a main title makes [normalize] raise
    [StopIteration], which nothing catches: the run ends there with the
    traceback and exit status 1.  The entry is not skipped and no later
    entry is read: the batches sent hold documents of earlier entries only,
    and the documents still in the queue are never sent. *)
Theorem missing_main_is_fatal (w : World) (args : Args)
  (pre : list Anime) (bad : Anime) (post : list Anime) (ds : list document) :
  healthy w = true ->
  (forall tr b, accepts w tr b = true) ->
  dump w = Some (pre ++ bad :: post) ->
  documents_of pre = Some ds ->
  find is_main (titles bad) = None ->
  normalize bad = Uncaught StopIteration
  /\ exists tr q,
      main w args [] = (Uncaught StopIteration, tr)
      /\ exit_status (fst (main w args [])) = 1%Z
      /\ List.concat (batches tr) ++ q = ds
      /\ List.length q = List.length pre mod 500.
Proof.
  intros Hh Ha Hd Hds Hbad.
  pose proof (@normalize_no_main bad Hbad) as Hn.
  split; [exact Hn | ].
  assert (Hlen : 1 <= List.length (pre ++ bad :: post)).
  { rewrite length_app. cbn [List.length]. lia. }
  destruct (@loop_prefix w Ha (index_uid args)
              (List.length (pre ++ bad :: post)) pre (bad :: post)
              ds 0 [] (connected w args) Hds eq_refl)
    as [bs [q [tr [E [B [L [Q C]]]]]]].
  cbn [Nat.add List.app] in *.
  rewrite batches_connected in B. cbn [List.app] in B.
  rewrite (@loop_fail w (index_uid args) _ bad post _ q tr _ Hn) in E.
  assert (R : main w args [] = (Uncaught StopIteration, tr)).
  { rewrite (@main_present w args _ Hh Hd Hlen).
    unfold bind at 1. now rewrite E. }
  exists tr, q. rewrite R.
  split; [reflexivity | ]. split; [reflexivity | ].
  split; [now rewrite B | exact Q].
Qed.

Lemma missing_main_is_fatal_witness :
  normalize (mkAnime 9 [mkTitle "official" "en" "No main"])
  = Uncaught StopIteration
  /\ exists tr q,
      main (server (Some (catalog 2
                            ++ mkAnime 9 [mkTitle "official" "en" "No main"]
                            :: catalog 1)))
        default_args []
      = (Uncaught StopIteration, tr)
      /\ exit_status
           (fst (main (server (Some (catalog 2
                                       ++ mkAnime 9 [mkTitle "official" "en"
                                                       "No main"]
                                       :: catalog 1)))
                   default_args []))
         = 1%Z
      /\ List.concat (batches tr) ++ q
         = [[("anime_id", VInt 1); ("main", VStr "Title")];
            [("anime_id", VInt 2); ("main", VStr "Title")]]
      /\ List.length q = List.length (catalog 2) mod 500.
Proof.
  apply (@missing_main_is_fatal
           (server (Some (catalog 2
                            ++ mkAnime 9 [mkTitle "official" "en" "No main"]
                            :: catalog 1)))
           default_args (catalog 2)
           (mkAnime 9 [mkTitle "official" "en" "No main"]) (catalog 1));
    reflexivity.
Defined.

(** * More on the entries *)

Lemma filter_none (A : Type) (p : A -> bool) (l : list A) :
  forallb (fun x => negb (p x)) l = true -> filter p l = [].
Proof.
  induction l as [|x l IH]; simpl; [reflexivity | ].
  intros H. apply andb_true_iff in H as [Hx Hl].
  apply negb_true_iff in Hx. rewrite Hx. now apply IH.
Qed.

(** X1: short titles are kept only through the official title of their
    language: an entry with a main title and no official title gives the
    two fields [anime_id] and [main] and nothing else, whatever short
    titles and titles of other types it has. *)
Theorem shorts_need_an_official (anime : Anime) (main : Title) :
  find is_main (titles anime) = Some main ->
  forallb (fun t => negb (is_official t)) (titles anime) = true ->
  normalize anime
  = Return [("anime_id", VInt (aid anime)); ("main", VStr (text main))].
Proof.
  intros Hm Hn. rewrite (normalize_writes _ Hm). unfold writes.
  now rewrite (filter_none _ _ Hn).
Qed.

Lemma shorts_need_an_official_witness :
  normalize (mkAnime 8 [mkTitle "short" "en" "S1"; mkTitle "main" "x-jat" "M";
                        mkTitle "short" "fr" "S2"; mkTitle "syn" "en" "Y"])
  = Return [("anime_id", VInt 8); ("main", VStr "M")].
Proof.
  apply (@shorts_need_an_official
           (mkAnime 8 [mkTitle "short" "en" "S1"; mkTitle "main" "x-jat" "M";
                       mkTitle "short" "fr" "S2"; mkTitle "syn" "en" "Y"])
           (mkTitle "main" "x-jat" "M")); reflexivity.
Defined.

Lemma find_filter_keyed (ts : list Title) :
  find is_main (filter is_keyed ts) = find is_main ts.
Proof.
  induction ts as [|t ts IH]; simpl; [reflexivity | ].
  unfold is_keyed at 1. destruct (is_main t) eqn:E; simpl.
  - now rewrite E.
  - destruct (is_official t || is_short t); simpl; [now rewrite E | exact IH].
Qed.

Lemma filter_official_keyed (ts : list Title) :
  filter is_official (filter is_keyed ts) = filter is_official ts.
Proof.
  induction ts as [|t ts IH]; simpl; [reflexivity | ].
  unfold is_keyed at 1. destruct (is_official t) eqn:E; simpl.
  - rewrite orb_true_r. simpl. now rewrite E, IH.
  - destruct (is_main t || false || is_short t); simpl;
      [now rewrite E | exact IH].
Qed.

Lemma short_names_list_keyed (ts : list Title) (l : string) :
  short_names_list (filter is_keyed ts) l = short_names_list ts l.
Proof.
  unfold short_names_list. f_equal.
  induction ts as [|t ts IH]; simpl; [reflexivity | ].
  unfold is_keyed at 1. destruct (is_short t) eqn:E; simpl.
  - rewrite orb_true_r. simpl. rewrite E. simpl.
    destruct (lang t =? l); now rewrite IH.
  - destruct (is_main t || is_official t || false); simpl;
      [now rewrite E | exact IH].
Qed.

Lemma block_keyed (ts : list Title) (o : Title) :
  block (filter is_keyed ts) o = block ts o.
Proof. unfold block. now rewrite short_names_list_keyed. Qed.

(** X2: titles whose type is not main, official or short (synonyms, card
    and kana titles of the dump) change nothing: an entry without them has
    the same result, document or failure. *)
Theorem other_titles_are_ignored (a : Z) (ts : list Title) :
  normalize (mkAnime a (filter is_keyed ts)) = normalize (mkAnime a ts).
Proof.
  destruct (find is_main ts) as [m | ] eqn:Hm.
  - rewrite (@normalize_writes (mkAnime a ts) m Hm).
    rewrite (@normalize_writes (mkAnime a (filter is_keyed ts)) m)
      by (cbn [titles]; now rewrite find_filter_keyed).
    cbn [titles aid]. f_equal. f_equal. unfold writes.
    rewrite filter_official_keyed.
    apply flat_map_ext. intros o. apply block_keyed.
  - rewrite (@normalize_no_main (mkAnime a ts) Hm).
    apply normalize_no_main. cbn [titles]. now rewrite find_filter_keyed.
Qed.

Lemma keys_fold_assign_app (ws : list (string * value)) :
  forall d : document,
  exists ext,
    keys (fold_left assign ws d) = keys d ++ ext
    /\ (NoDup (keys d) -> NoDup (keys d ++ ext))
    /\ (forall k, In k ext -> In k (map fst ws)).
Proof.
  induction ws as [|[k v] ws IH]; intros d; cbn [fold_left].
  - exists []. rewrite List.app_nil_r. repeat split; [tauto | intros k []].
  - destruct (IH (assign d (k, v))) as [ext [E [N I]]].
    unfold assign in E, N. cbn [fst snd] in E, N.
    rewrite keys_dict_set in E, N.
    destruct (existsb (String.eqb k) (keys d)) eqn:X.
    + exists ext. split; [exact E | split; [exact N | ]].
      intros k' H. right. now apply I.
    + exists (k :: ext). rewrite <- List.app_assoc in E, N. cbn [List.app] in E, N.
      split; [exact E | split].
      * intros H. apply N. apply NoDup_app; [exact H | | ].
        -- constructor; [intros [] | constructor].
        -- intros x Hx [Ex | []]. subst x.
           assert (Y : existsb (String.eqb k) (keys d) = true).
           { apply existsb_exists. exists k. split; [exact Hx | ].
             apply String.eqb_refl. }
           congruence.
      * intros k' [<- | H]; [now left | right; now apply I].
Qed.

(** X3: in every document the keys are pairwise distinct, the first two
    are [anime_id] and [main] in this order, and every other key is an
    official key or a short key. *)
Theorem document_keys (anime : Anime) (main : Title) :
  find is_main (titles anime) = Some main ->
  exists doc rest,
    normalize anime = Return doc
    /\ keys doc = "anime_id" :: "main" :: rest
    /\ NoDup (keys doc)
    /\ Forall (fun k => (exists l, k = official_key l)
                        \/ (exists l i, k = short_key l i)) rest.
Proof.
  intros Hm. rewrite (normalize_writes _ Hm).
  destruct (keys_fold_assign_app (writes (titles anime))
              [("anime_id", VInt (aid anime)); ("main", VStr (text main))])
    as [ext [E [N I]]].
  eexists. exists ext. split; [reflexivity | ]. split; [exact E | ]. split.
  - rewrite E. apply N. cbn [keys map fst].
    constructor; [intros [H | []]; discriminate | ].
    constructor; [intros [] | constructor].
  - apply Forall_forall. intros k Hk. now apply writes_keys with (titles anime), I.
Qed.

Lemma document_keys_witness :
  exists doc rest,
    normalize (mkAnime 1 [mkTitle "main" "x-jat" "M";
                          mkTitle "official" "en" "O"; mkTitle "short" "en" "S";
                          mkTitle "official" "en" "P"]) = Return doc
    /\ keys doc = "anime_id" :: "main" :: rest
    /\ NoDup (keys doc)
    /\ Forall (fun k => (exists l, k = official_key l)
                        \/ (exists l i, k = short_key l i)) rest.
Proof.
  apply (@document_keys
           (mkAnime 1 [mkTitle "main" "x-jat" "M";
                       mkTitle "official" "en" "O"; mkTitle "short" "en" "S";
                       mkTitle "official" "en" "P"])
           (mkTitle "main" "x-jat" "M")); reflexivity.
Defined.

(** A short key is a field exactly when some assignment of the entry is
    made to it. *)
Lemma short_field_written (a : Z) (m : string) (ts : list Title)
  (l : string) (i : nat) :
  lookup (short_key l i)
    (fold_left assign (writes ts) [("anime_id", VInt a); ("main", VStr m)])
  <> None
  <-> In (short_key l i) (map fst (writes ts)).
Proof.
  rewrite lookup_fold_assign, short_key_fresh.
  destruct (last_write (short_key l i) (writes ts)) as [v | ] eqn:E.
  - split; [intros _ | discriminate].
    apply in_map_iff. exists (short_key l i, v).
    split; [reflexivity | now apply last_write_in].
  - apply last_write_none in E. split; [congruence | contradiction].
Qed.

(** X4: the short fields of a language are numbered from 1 without a gap:
    no document has a field [short_<language>_0], and a document with the
    field number [j + 2] of a language also has its field number [j + 1]. *)
Theorem short_fields_have_no_gap (anime : Anime) (main : Title) :
  find is_main (titles anime) = Some main ->
  exists doc,
    normalize anime = Return doc
    /\ (forall l, lookup (short_key l 0) doc = None)
    /\ (forall l j,
          lookup (short_key l (S (S j))) doc <> None ->
          lookup (short_key l (S j)) doc <> None).
Proof.
  intros Hm. rewrite (normalize_writes _ Hm).
  eexists. split; [reflexivity | ]. split.
  - intros l.
    destruct (lookup (short_key l 0) _) as [v0 | ] eqn:E; [ | reflexivity].
    exfalso.
    assert (H : In (short_key l 0) (map fst (writes (titles anime)))).
    { apply (short_field_written (aid anime) (text main)). congruence. }
    apply in_map_iff in H as [[k v] [Ek H]]. simpl in Ek. subst k.
    apply in_writes in H as [o [_ [_ [[Ek _] | [j [s [_ [Ek _]]]]]]]].
    + symmetry in Ek. now apply official_key_not_short in Ek.
    + apply short_key_inj in Ek as [_ Ek]. discriminate.
  - intros l j H. apply short_field_written in H.
    apply short_field_written.
    apply in_map_iff in H as [[k v] [Ek H]]. simpl in Ek. subst k.
    apply in_writes in H as [o [Ho [Hoff [[Ek _] | [j' [s [Hn [Ek _]]]]]]]].
    + symmetry in Ek. now apply official_key_not_short in Ek.
    + apply short_key_inj in Ek as [El Ej]. injection Ej as <-.
      destruct (nth_error (short_names_list (titles anime) (lang o)) j)
        as [s' | ] eqn:Hj.
      * apply in_map_iff. exists (short_key (lang o) (S j), VStr s').
        split; [simpl; apply short_key_inj; now split | ].
        apply in_writes. exists o. split; [exact Ho | split; [exact Hoff | ]].
        right. exists j, s'. now repeat split.
      * apply nth_error_None in Hj.
        assert (Hlt : S j < List.length
                        (short_names_list (titles anime) (lang o))).
        { apply nth_error_Some. congruence. }
        lia.
Qed.

Lemma short_fields_have_no_gap_witness :
  exists doc,
    normalize (mkAnime 6 [mkTitle "main" "x-jat" "M";
                          mkTitle "official" "en" "O";
                          mkTitle "short" "en" "A"; mkTitle "short" "en" "B"])
    = Return doc
    /\ (forall l, lookup (short_key l 0) doc = None)
    /\ (forall l j,
          lookup (short_key l (S (S j))) doc <> None ->
          lookup (short_key l (S j)) doc <> None).
Proof.
  apply (@short_fields_have_no_gap
           (mkAnime 6 [mkTitle "main" "x-jat" "M";
                       mkTitle "official" "en" "O";
                       mkTitle "short" "en" "A"; mkTitle "short" "en" "B"])
           (mkTitle "main" "x-jat" "M")); reflexivity.
Defined.




(** X6: under an official key the document holds the text of the last
    official title, in document order, whose language gives that key,
    whether or not the languages are the same. *)
Theorem last_official_of_key_wins (a : Z) (pre : list Title) (o : Title)
  (post : list Title) (m : Title) :
  find is_main (pre ++ o :: post) = Some m ->
  is_official o = true ->
  forallb (fun t => negb (is_official t
                          && (official_key (lang t) =? official_key (lang o))))
    post = true ->
  exists doc,
    normalize (mkAnime a (pre ++ o :: post)) = Return doc
    /\ lookup (official_key (lang o)) doc = Some (VStr (text o)).
Proof.
  intros Hm Ho Hlast.
  rewrite (@normalize_writes (mkAnime a _) m Hm).
  eexists. split; [reflexivity | ].
  rewrite lookup_fold_assign. cbn [titles]. unfold writes.
  rewrite filter_app. cbn [filter]. rewrite Ho.
  rewrite flat_map_app. cbn [flat_map].
  rewrite last_write_app, last_write_app.
  assert (N : last_write (official_key (lang o))
                (flat_map (block (pre ++ o :: post)) (filter is_official post))
              = None).
  { apply last_write_none. intros H.
    apply in_map_iff in H as [[k v] [E H]]. simpl in E. subst k.
    apply in_flat_map in H as [o' [Ho' H]].
    apply filter_In in Ho' as [Hin Hoff].
    rewrite forallb_forall in Hlast. specialize (Hlast o' Hin).
    rewrite Hoff in Hlast. cbn [andb] in Hlast.
    apply negb_true_iff, String.eqb_neq in Hlast.
    apply in_block in H as [[E _] | [j [s [_ [E _]]]]].
    - congruence.
    - now apply official_key_not_short in E. }
  rewrite N. now rewrite last_write_block.
Qed.

Lemma last_official_of_key_wins_witness :
  exists doc,
    normalize
      (mkAnime 5 ([mkTitle "main" "x-jat" "M"; mkTitle "official" "en" "X";
                   mkTitle "official" "en" "Y"]
                    ++ mkTitle "official" "EN" "Z"
                    :: [mkTitle "official" "fr" "F"]))
    = Return doc
    /\ lookup (official_key "EN") doc = Some (VStr "Z").
Proof.
  apply (@last_official_of_key_wins 5
           [mkTitle "main" "x-jat" "M"; mkTitle "official" "en" "X";
            mkTitle "official" "en" "Y"]
           (mkTitle "official" "EN" "Z") [mkTitle "official" "fr" "F"]
           (mkTitle "main" "x-jat" "M")); reflexivity.
Defined.

(** * More on the run *)

Lemma clean_from_app (w : World) (t1 t2 : list event) :
  forall before,
    clean_from w before (t1 ++ t2)
    = clean_from w before t1 && clean_from w (before ++ t1) t2.
Proof.
  induction t1 as [|e t1 IH]; intros before; cbn [List.app clean_from].
  - now rewrite List.app_nil_r.
  - rewrite IH, <- List.app_assoc. cbn [List.app]. now rewrite andb_assoc.
Qed.

Lemma clean_snoc (w : World) (tr : list event) (e : event) :
  clean w (tr ++ [e])
  = clean w tr
    && match e with
       | AddDocuments _ documents => accepts w tr documents
       | _ => true
       end.
Proof.
  unfold clean. rewrite clean_from_app. cbn [List.app clean_from].
  now rewrite andb_true_r.
Qed.

Lemma clean_connected (w : World) (args : Args) :
  clean w (connected w args) = true.
Proof.
  unfold connected.
  now destruct (find (fun index => index =? index_uid args) (indexes w)).
Qed.

Lemma normalize_not_exit (anime : Anime) (msg : string) :
  normalize anime <> SysExit msg.
Proof.
  unfold normalize. now destruct (find is_main (titles anime)).
Qed.

(** One turn of the loop, whatever the server answers. *)
Lemma loop_cons (w : World) (idx : string) (total : nat) (anime : Anime)
  (rest : list Anime) (index : nat) (q : list document) (tr : list event) :
  loop w idx total (anime :: rest) index q tr
  = match normalize anime with
    | Return d =>
        if (index mod 500 =? 0)%nat then
          if accepts w tr (q ++ [d])
          then loop w idx total rest (S index) []
                 (tr ++ [AddDocuments idx (q ++ [d]);
                         Stdout (progress total index); Sleep 1])
          else (SysExit indexing_error, tr ++ [AddDocuments idx (q ++ [d])])
        else loop w idx total rest (S index) (q ++ [d]) tr
    | SysExit msg => (SysExit msg, tr)
    | Uncaught e => (Uncaught e, tr)
    end.
Proof.
  cbn [loop]. unfold bind at 1, lift.
  destruct (normalize anime) as [d | msg | e]; try reflexivity.
  destruct (index mod 500 =? 0)%nat; [ | reflexivity].
  unfold bind, add_documents, print, emit.
  destruct (accepts w tr (q ++ [d])); [ | reflexivity].
  now rewrite <- !List.app_assoc.
Qed.

(** What the loop keeps, for every server: it only adds documents to its
    index, prints and sleeps; every batch it sends has 500 documents; it
    stops at the first batch that the server refuses and at the first
    entry without a main title. *)
Lemma loop_any (w : World) (idx : string) (total : nat)
  (animes : list Anime) :
  forall (n : nat) (q : list document) (tr : list event)
         (o : outcome (list document)) (tr' : list event),
    List.length q = n mod 500 ->
    clean w tr = true ->
    loop w idx total animes (S n) q tr = (o, tr') ->
    exists ext,
      tr' = tr ++ ext
      /\ forallb (is_load idx) ext = true
      /\ Forall (fun b => List.length b = 500) (batches ext)
      /\ match o with
         | Return q' =>
             clean w tr' = true
             /\ List.length q' = (n + List.length animes) mod 500
             /\ exists ds, documents_of animes = Some ds
                  /\ List.concat (batches ext) ++ q' = q ++ ds
         | SysExit msg =>
             msg = indexing_error
             /\ exists ext0 b, ext = ext0 ++ [AddDocuments idx b]
                  /\ clean w (tr ++ ext0) = true
                  /\ accepts w (tr ++ ext0) b = false
         | Uncaught e =>
             clean w tr' = true /\ documents_of animes = None
         end.
Proof.
  induction animes as [|anime rest IH]; intros n q tr o tr' Hq Hc E.
  - cbn [loop] in E. unfold ret in E. injection E as <- <-.
    exists []. rewrite !List.app_nil_r, Nat.add_0_r.
    repeat split; try assumption; try constructor.
    exists []. now rewrite List.app_nil_r.
  - rewrite loop_cons in E. cbn [documents_of].
    destruct (normalize anime) as [d | msg | e] eqn:Hd.
    + destruct (Nat.eq_dec ((S n) mod 500) 0) as [Hi | Hi].
      * rewrite Hi in E. cbn [Nat.eqb] in E.
        destruct (@step_full n Hi) as [Hn _].
        assert (L : List.length (q ++ [d]) = 500).
        { rewrite length_app. cbn [List.length]. lia. }
        destruct (accepts w tr (q ++ [d])) eqn:Ha.
        -- apply IH in E; [ | now rewrite Hi | ].
           2:{ change (tr ++ [AddDocuments idx (q ++ [d]);
                              Stdout (progress total (S n)); Sleep 1])
                 with (tr ++ [AddDocuments idx (q ++ [d])]
                          ++ [Stdout (progress total (S n))] ++ [Sleep 1]).
               rewrite !List.app_assoc, !clean_snoc, Hc, Ha. reflexivity. }
           destruct E as [ext [Et [Hl [Hb Ho]]]].
           exists ([AddDocuments idx (q ++ [d]);
                    Stdout (progress total (S n)); Sleep 1] ++ ext).
           split; [now rewrite Et, <- List.app_assoc | ].
           split; [cbn [List.app forallb is_load];
                   now rewrite String.eqb_refl, Hl | ].
           split; [cbn [List.app batches]; now constructor | ].
           destruct o as [q' | msg | e].
           ++ destruct Ho as [C [Lq [ds [Hds Cc]]]].
              split; [exact C | ].
              split; [now rewrite Lq; f_equal; cbn [List.length]; lia | ].
              rewrite Hds. exists (d :: ds). split; [reflexivity | ].
              cbn [List.app batches List.concat]. cbn [List.app] in Cc.
              now rewrite <- !List.app_assoc, Cc.
           ++ destruct Ho as [-> [ext0 [b [-> [C A]]]]].
              split; [reflexivity | ].
              exists ([AddDocuments idx (q ++ [d]);
                       Stdout (progress total (S n)); Sleep 1] ++ ext0), b.
              split; [now rewrite <- List.app_assoc | ].
              rewrite (List.app_assoc tr). now split.
           ++ destruct Ho as [C Hds]. now rewrite Hds.
        -- injection E as <- <-.
           exists [AddDocuments idx (q ++ [d])].
           split; [reflexivity | ].
           split; [cbn [forallb is_load]; now rewrite String.eqb_refl | ].
           split; [cbn [batches]; now constructor | ].
           split; [reflexivity | ]. exists [], (q ++ [d]).
           rewrite List.app_nil_r. now repeat split.
      * apply Nat.eqb_neq in Hi as Hi'. rewrite Hi' in E.
        destruct (@step_part n Hi) as [Hn _].
        apply IH in E;
          [ | rewrite length_app; cbn [List.length]; lia | exact Hc].
        destruct E as [ext [Et [Hl [Hb Ho]]]].
        exists ext. split; [exact Et | split; [exact Hl | split; [exact Hb | ]]].
        destruct o as [q' | msg | e].
        -- destruct Ho as [C [Lq [ds [Hds Cc]]]].
           split; [exact C | ].
           split; [now rewrite Lq; f_equal; cbn [List.length]; lia | ].
           rewrite Hds. exists (d :: ds). split; [reflexivity | ].
           now rewrite Cc, <- List.app_assoc.
        -- exact Ho.
        -- destruct Ho as [C Hds]. now rewrite Hds.
    + now apply normalize_not_exit in Hd.
    + injection E as <- <-. exists []. rewrite List.app_nil_r.
      repeat split; try assumption; constructor.
Qed.

Lemma main_unhealthy (w : World) (args : Args) :
  healthy w = false ->
  main w args [] = (SysExit (no_instance (url args)), [Health (url args)]).
Proof.
  intros Hh. unfold main, create_connection, bind, emit, sys_exit.
  now rewrite Hh.
Qed.

Lemma main_empty (w : World) (args : Args) :
  healthy w = true -> dump w = Some [] ->
  main w args []
  = (SysExit "No anime found during parsing...", connected w args).
Proof.
  intros Hh Hd.
  unfold main, create_connection, get_or_create_index, parse_and_index,
    connected, bind, emit, ret, sys_exit.
  rewrite Hh, Hd.
  now destruct (find (fun index => index =? index_uid args) (indexes w)).
Qed.

(** The end of a run after the loop: the last flush and the last line. *)
Lemma main_after_loop (w : World) (args : Args) (animes : list Anime) :
  healthy w = true -> dump w = Some animes -> 1 <= List.length animes ->
  main w args []
  = match loop w (index_uid args) (List.length animes) animes 1 []
            (connected w args) with
    | (Return q, tr) =>
        if accepts w tr q
        then (Return tt,
              tr ++ [AddDocuments (index_uid args) q;
                     Stdout (finished (List.length animes))])
        else (SysExit indexing_error, tr ++ [AddDocuments (index_uid args) q])
    | (SysExit msg, tr) => (SysExit msg, tr)
    | (Uncaught e, tr) => (Uncaught e, tr)
    end.
Proof.
  intros Hh Hd Hn. rewrite (@main_present w args animes Hh Hd Hn).
  unfold bind at 1.
  destruct (loop w (index_uid args) (List.length animes) animes 1 []
              (connected w args)) as [[q | msg | e] tr]; try reflexivity.
  unfold bind, add_documents, print, emit.
  destruct (accepts w tr q); [ | reflexivity].
  now rewrite <- List.app_assoc.
Qed.

Lemma main_ending (w : World) (args : Args) (animes : list Anime) :
  healthy w = true -> dump w = Some animes -> 1 <= List.length animes ->
  ending w args animes (fst (main w args [])) (snd (main w args [])).
Proof.
  intros Hh Hd Hn. rewrite (@main_after_loop w args animes Hh Hd Hn).
  destruct (loop w (index_uid args) (List.length animes) animes 1 []
              (connected w args)) as [o tr] eqn:E.
  apply loop_any in E; [ | reflexivity | apply clean_connected].
  destruct E as [ext [-> [Hl [Hb Ho]]]].
  destruct o as [q | msg | e].
  - destruct Ho as [C [Lq [ds [Hds Cc]]]]. cbn [Nat.add List.app] in Lq, Cc.
    destruct (accepts w (connected w args ++ ext) q) eqn:A;
      cbn [fst snd]; rewrite <- List.app_assoc.
    + apply Indexed with (ds := ds); try assumption.
      rewrite List.app_assoc, clean_snoc, C, A. reflexivity.
    + apply Refused; try assumption. rewrite Lq.
      pose proof (Nat.mod_upper_bound (List.length animes) 500). lia.
  - destruct Ho as [-> [ext0 [b [-> [C A]]]]]. cbn [fst snd].
    rewrite forallb_app in Hl. apply andb_true_iff in Hl as [Hl _].
    rewrite batches_app in Hb. apply Forall_app in Hb as [Hb Hb'].
    cbn [batches] in Hb'. inversion Hb' as [ | x l Hx _]; subst.
    apply Refused; try assumption. lia.
  - destruct Ho as [C Hds]. destruct e. cbn [fst snd].
    now apply Broken.
Qed.

(** The four ways a run can go. *)
Lemma main_cases (w : World) (args : Args) :
  (healthy w = false
   /\ main w args [] = (SysExit (no_instance (url args)), [Health (url args)]))
  \/ (healthy w = true /\ dump w = None
      /\ main w args [] = (SysExit not_found, connected w args))
  \/ (healthy w = true /\ dump w = Some []
      /\ main w args []
         = (SysExit "No anime found during parsing...", connected w args))
  \/ (healthy w = true
      /\ exists animes, dump w = Some animes /\ 1 <= List.length animes
           /\ ending w args animes (fst (main w args []))
                (snd (main w args []))).
Proof.
  destruct (healthy w) eqn:Hh.
  - right. destruct (dump w) as [[|anime animes] | ] eqn:Hd.
    + right. left. now rewrite main_empty.
    + right. right. split; [reflexivity | ]. exists (anime :: animes).
      split; [reflexivity | ]. split; [cbn [List.length]; lia | ].
      apply main_ending; try assumption. cbn [List.length]. lia.
    + left. now rewrite main_absent.
  - left. now rewrite main_unhealthy.
Qed.

(** X7: when the health check fails the run stops at once with
    [sys.exit], the message that names the url and exit status 1; the
    health check is the only thing asked of the server: no index is
    listed, created or cleared, and the dump is not read. *)
Theorem server_down (w : World) (args : Args) :
  healthy w = false ->
  main w args [] = (SysExit (no_instance (url args)), [Health (url args)])
  /\ exit_status (fst (main w args [])) = 1%Z.
Proof.
  intros Hh. rewrite (@main_unhealthy w args Hh). now split.
Qed.

Lemma server_down_witness :
  main (mkWorld false ["animes"] (fun _ _ => true) (Some (catalog 2)))
    default_args []
  = (SysExit (no_instance "http://127.0.0.1:7700"),
     [Health "http://127.0.0.1:7700"])
  /\ exit_status
       (fst (main (mkWorld false ["animes"] (fun _ _ => true)
                     (Some (catalog 2)))
               default_args []))
     = 1%Z.
Proof.
  apply (@server_down
           (mkWorld false ["animes"] (fun _ _ => true) (Some (catalog 2)))
           default_args); reflexivity.
Defined.

(** X8: a dump without any [anime] element stops the run with [sys.exit],
    the message of line 97 and exit status 1; nothing is added, but the
    index has been cleared before the dump was read. *)
Theorem empty_dump (w : World) (args : Args) :
  healthy w = true ->
  dump w = Some [] ->
  main w args []
  = (SysExit "No anime found during parsing...",
     [Health (url args);
      GetIndexes;
      match find (fun index => index =? index_uid args) (indexes w) with
      | Some _ => GetIndex (index_uid args)
      | None => CreateIndex (index_uid args) (index_name args)
      end;
      DeleteAllDocuments (index_uid args);
      Parse "anime-titles.xml"])
  /\ exit_status (fst (main w args [])) = 1%Z.
Proof.
  intros Hh Hd. rewrite (@main_empty w args Hh Hd). now split.
Qed.

Lemma empty_dump_witness :
  main (server (Some [])) (mkArgs "http://search:7700" "titles" "Titles") []
  = (SysExit "No anime found during parsing...",
     [Health "http://search:7700"; GetIndexes; CreateIndex "titles" "Titles";
      DeleteAllDocuments "titles"; Parse "anime-titles.xml"])
  /\ exit_status
       (fst (main (server (Some []))
               (mkArgs "http://search:7700" "titles" "Titles") []))
     = 1%Z.
Proof.
  apply (@empty_dump (server (Some []))
           (mkArgs "http://search:7700" "titles" "Titles")); reflexivity.
Defined.

Lemma batches_connected_app (w : World) (args : Args) (ext : list event) :
  batches (connected w args ++ ext) = batches ext.
Proof. now rewrite batches_app, batches_connected. Qed.

(** X9: a run that ends normally has indexed the whole dump, whatever the
    server is: the server was up, the dump has at least one entry, every
    entry has a main title, the server took every batch, and the batches
    put end to end are the documents of all the entries in order. *)
Theorem success_means_all_indexed (w : World) (args : Args) :
  fst (main w args []) = Return tt ->
  healthy w = true
  /\ clean w (snd (main w args [])) = true
  /\ exists animes ds,
      dump w = Some animes
      /\ 1 <= List.length animes
      /\ documents_of animes = Some ds
      /\ List.concat (batches (snd (main w args []))) = ds.
Proof.
  intros R.
  destruct (main_cases w args)
    as [[_ E] | [[_ [_ E]] | [[_ [_ E]] | [Hh [animes [Hd [Hn E]]]]]]];
    try (rewrite E in R; discriminate).
  split; [exact Hh | ].
  destruct E as [ext q ds Hl Hb Lq Hds Cc C | ext b | ext]; try discriminate.
  split.
  - change [AddDocuments (index_uid args) q;
            Stdout (finished (List.length animes))]
      with ([AddDocuments (index_uid args) q]
              ++ [Stdout (finished (List.length animes))]).
    rewrite !List.app_assoc, clean_snoc, <- List.app_assoc, C. reflexivity.
  - exists animes, ds. repeat split; try assumption.
    rewrite batches_connected_app, batches_app. cbn [batches].
    rewrite concat_app. cbn [List.concat]. now rewrite List.app_nil_r.
Qed.

Lemma success_means_all_indexed_witness :
  healthy (server (Some (catalog 3))) = true
  /\ clean (server (Some (catalog 3)))
       (snd (main (server (Some (catalog 3))) default_args [])) = true
  /\ exists animes ds,
      dump (server (Some (catalog 3))) = Some animes
      /\ 1 <= List.length animes
      /\ documents_of animes = Some ds
      /\ List.concat
           (batches (snd (main (server (Some (catalog 3))) default_args [])))
         = ds.
Proof.
  apply (@success_means_all_indexed (server (Some (catalog 3))) default_args).
  reflexivity.
Defined.

Lemma not_indexing_error_1 (url : string) :
  SysExit (A := unit) (no_instance url) <> SysExit indexing_error.
Proof. unfold no_instance, indexing_error, red. simpl. congruence. Qed.

Lemma not_indexing_error_2 :
  SysExit (A := unit) not_found <> SysExit indexing_error.
Proof. unfold not_found, indexing_error, red. simpl. congruence. Qed.

Lemma not_indexing_error_3 :
  SysExit (A := unit) "No anime found during parsing..."
  <> SysExit indexing_error.
Proof. unfold indexing_error, red. simpl. congruence. Qed.

(** X10: a batch that the server refuses ends the run: the run stops with
    [sys.exit] and the indexing message exactly when its trace holds a
    refused batch, and then that batch is the last event of the trace and
    every batch before it was taken; nothing is sent again and nothing is
    sent after it. *)
Theorem refused_batch_ends_run (w : World) (args : Args) :
  (fst (main w args []) = SysExit indexing_error
   <-> clean w (snd (main w args [])) = false)
  /\ (clean w (snd (main w args [])) = false ->
      exists tr0 b,
        snd (main w args []) = tr0 ++ [AddDocuments (index_uid args) b]
        /\ clean w tr0 = true
        /\ accepts w tr0 b = false).
Proof.
  destruct (main_cases w args)
    as [[_ E] | [[_ [_ E]] | [[_ [_ E]] | [Hh [animes [Hd [Hn E]]]]]]].
  - rewrite E. cbn [fst snd]. split; [ | discriminate].
    split; [intros H; now apply not_indexing_error_1 in H | discriminate].
  - rewrite E. cbn [fst snd]. rewrite clean_connected.
    split; [ | discriminate].
    split; [intros H; now apply not_indexing_error_2 in H | discriminate].
  - rewrite E. cbn [fst snd]. rewrite clean_connected.
    split; [ | discriminate].
    split; [intros H; now apply not_indexing_error_3 in H | discriminate].
  - destruct E as [ext q ds Hl Hb Lq Hds Cc C | ext b Hl Hb Lb C A | ext Hl Hb C].
    + assert (K : clean w (connected w args ++ ext
                           ++ [AddDocuments (index_uid args) q;
                               Stdout (finished (List.length animes))])
                  = true).
      { change [AddDocuments (index_uid args) q;
                Stdout (finished (List.length animes))]
          with ([AddDocuments (index_uid args) q]
                  ++ [Stdout (finished (List.length animes))]).
        rewrite !List.app_assoc, clean_snoc, <- List.app_assoc, C.
        reflexivity. }
      rewrite K. split; [split; discriminate | discriminate].
    + assert (K : clean w (connected w args ++ ext
                           ++ [AddDocuments (index_uid args) b]) = false).
      { rewrite List.app_assoc, clean_snoc, C, A. reflexivity. }
      rewrite K. split; [now split | ]. intros _.
      exists (connected w args ++ ext), b.
      rewrite List.app_assoc. now repeat split.
    + rewrite C. split; [split; discriminate | discriminate].
Qed.

Lemma refused_batch_ends_run_witness :
  exists tr0 b,
    snd (main (mkWorld true [] (fun _ _ => false) (Some (catalog 2)))
           default_args [])
    = tr0 ++ [AddDocuments "animes" b]
    /\ clean (mkWorld true [] (fun _ _ => false) (Some (catalog 2))) tr0 = true
    /\ accepts (mkWorld true [] (fun _ _ => false) (Some (catalog 2))) tr0 b
       = false.
Proof.
  apply (proj2 (@refused_batch_ends_run
                  (mkWorld true [] (fun _ _ => false) (Some (catalog 2)))
                  default_args)).
  reflexivity.
Defined.

Lemma load_is_no_delete (uid : string) (ext : list event) :
  forallb (is_load uid) ext = true -> filter is_delete ext = [].
Proof.
  induction ext as [|e ext IH]; simpl; [reflexivity | ].
  intros H. apply andb_true_iff in H as [He Hext].
  destruct e; try discriminate; now apply IH.
Qed.

Lemma delete_connected (w : World) (args : Args) :
  filter is_delete (connected w args) = [DeleteAllDocuments (index_uid args)].
Proof.
  unfold connected.
  now destruct (find (fun index => index =? index_uid args) (indexes w)).
Qed.

(** With the server up a trace is the connection followed by loads. *)
Lemma run_shape (w : World) (args : Args) :
  healthy w = true ->
  exists ext,
    snd (main w args []) = connected w args ++ ext
    /\ forallb (is_load (index_uid args)) ext = true.
Proof.
  intros Hh.
  destruct (main_cases w args)
    as [[F _] | [[_ [_ E]] | [[_ [_ E]] | [_ [animes [Hd [Hn E]]]]]]].
  - congruence.
  - exists []. rewrite E, List.app_nil_r. now split.
  - exists []. rewrite E, List.app_nil_r. now split.
  - destruct E as [ext q ds Hl | ext b Hl | ext Hl].
    + eexists. split; [reflexivity | ].
      rewrite forallb_app, Hl. cbn [forallb is_load].
      now rewrite String.eqb_refl.
    + eexists. split; [reflexivity | ].
      rewrite forallb_app, Hl. cbn [forallb is_load].
      now rewrite String.eqb_refl.
    + now exists ext.
Qed.

(** X11: with the server up, a run starts with the health check, the
    listing of the indexes, one [get_index] or [create_index], the deletion
    of all documents and the reading of the dump, in this order; after that
    it only adds documents, to the index of [--index-uid], prints and
    sleeps.  The index is cleared exactly once, before any document is
    added, however the run ends. *)
Theorem cleared_once_then_loaded (w : World) (args : Args) :
  healthy w = true ->
  exists ext,
    snd (main w args []) = connected w args ++ ext
    /\ forallb (is_load (index_uid args)) ext = true
    /\ filter is_delete (snd (main w args []))
       = [DeleteAllDocuments (index_uid args)].
Proof.
  intros Hh.
  destruct (@run_shape w args Hh) as [ext [E Hl]]. exists ext.
  split; [exact E | split; [exact Hl | ]].
  rewrite E, filter_app, delete_connected, (load_is_no_delete _ _ Hl).
  reflexivity.
Qed.

Lemma cleared_once_then_loaded_witness :
  exists ext,
    snd (main (server (Some (catalog 2))) default_args [])
    = connected (server (Some (catalog 2))) default_args ++ ext
    /\ forallb (is_load "animes") ext = true
    /\ filter is_delete (snd (main (server (Some (catalog 2))) default_args []))
       = [DeleteAllDocuments "animes"].
Proof.
  apply (@cleared_once_then_loaded (server (Some (catalog 2))) default_args).
  reflexivity.
Defined.

(** X12: no call of [add_documents] carries more than 500 documents, for
    every dump and every server: the batches of a run are batches of
    exactly 500 documents, followed by at most one batch of at most 500. *)
Theorem batches_are_bounded (w : World) (args : Args) :
  exists full last,
    batches (snd (main w args [])) = full ++ last
    /\ Forall (fun b => List.length b = 500) full
    /\ Forall (fun b => List.length b <= 500) last
    /\ List.length last <= 1.
Proof.
  destruct (main_cases w args)
    as [[_ E] | [[_ [_ E]] | [[_ [_ E]] | [_ [animes [Hd [Hn E]]]]]]].
  - exists [], []. rewrite E. cbn. repeat split; auto.
  - exists [], []. rewrite E. cbn [snd]. rewrite batches_connected.
    cbn. repeat split; auto.
  - exists [], []. rewrite E. cbn [snd]. rewrite batches_connected.
    cbn. repeat split; auto.
  - destruct E as [ext q ds Hl Hb Lq | ext b Hl Hb Lb | ext Hl Hb].
    + exists (batches ext), [q].
      rewrite batches_connected_app, batches_app. cbn [batches].
      repeat split; auto. constructor; [ | constructor].
      rewrite Lq. pose proof (Nat.mod_upper_bound (List.length animes) 500).
      lia.
    + exists (batches ext), [b].
      rewrite batches_connected_app, batches_app. cbn [batches].
      repeat split; auto.
    + exists (batches ext), []. rewrite batches_connected_app, List.app_nil_r.
      repeat split; auto.
Qed.




Section Output.

Variable w : World.
Hypothesis accepting : forall tr b, accepts w tr b = true.
Variables (idx : string) (total : nat).


End Output.




Example output_of_1200 :
  stdout (snd (main (server (Some (catalog 1200))) default_args []))
  = [("Indexing 500 of 1200..." ++ cr)%string;
     ("Indexing 1000 of 1200..." ++ cr)%string;
     ("Indexed all 1200 animes! Have fun!" ++ nl)%string]
  /\ slept (snd (main (server (Some (catalog 1200))) default_args [])) = 2.
Proof. vm_compute. split; reflexivity. Qed.

Lemma load_is_no_index_call (uid : string) (ext : list event) (e : event) :
  forallb (is_load uid) ext = true -> In e ext -> is_load uid e = true.
Proof. intros H He. rewrite forallb_forall in H. now apply H. Qed.

(** X14: with the server up, an index whose uid is listed by the server is
    fetched and never created; one that is not listed is created with the
    name of [--index-name] and never fetched. *)
Theorem index_fetched_or_created (w : World) (args : Args) :
  healthy w = true ->
  (In (index_uid args) (indexes w) ->
   In (GetIndex (index_uid args)) (snd (main w args []))
   /\ forall uid name, ~ In (CreateIndex uid name) (snd (main w args [])))
  /\ (~ In (index_uid args) (indexes w) ->
      In (CreateIndex (index_uid args) (index_name args))
        (snd (main w args []))
      /\ forall uid, ~ In (GetIndex uid) (snd (main w args []))).
Proof.
  intros Hh. destruct (@run_shape w args Hh) as [ext [E Hl]]. rewrite E.
  unfold connected.
  destruct (find (fun index => index =? index_uid args) (indexes w))
    as [u | ] eqn:F.
  - apply find_some in F as [Hin Hu]. apply String.eqb_eq in Hu. subst u.
    split; [intros _ | contradiction]. split.
    + apply in_or_app. left. cbn. auto.
    + intros uid name H. apply in_app_or in H as [H | H].
      * cbn in H. repeat destruct H as [H | H]; try discriminate. exact H.
      * now apply (load_is_no_index_call _ _ _ Hl) in H.
  - split; [intros Hin | intros _].
    + exfalso. apply (find_none _ _ F) in Hin.
      now rewrite String.eqb_refl in Hin.
    + split.
      * apply in_or_app. left. cbn. auto.
      * intros uid H. apply in_app_or in H as [H | H].
        -- cbn in H. repeat destruct H as [H | H]; try discriminate. exact H.
        -- now apply (load_is_no_index_call _ _ _ Hl) in H.
Qed.

Lemma index_fetched_or_created_witness :
  In (CreateIndex "titles" "Titles")
    (snd (main (server (Some (catalog 1)))
            (mkArgs "http://127.0.0.1:7700" "titles" "Titles") []))
  /\ forall uid,
      ~ In (GetIndex uid)
          (snd (main (server (Some (catalog 1)))
                  (mkArgs "http://127.0.0.1:7700" "titles" "Titles") [])).
Proof.
  apply (proj2 (@index_fetched_or_created (server (Some (catalog 1)))
                  (mkArgs "http://127.0.0.1:7700" "titles" "Titles")
                  eq_refl)).
  cbn. intros [H | []]. discriminate.
Defined.
